(** * cpp-projects: the [vector_t] container (hw06) and the sudoku
      solver and field checker (hw01), embedded and verified.

    Integers of the C++ sources are modelled as [Z]; a [size_t] is a [Z] in
    [0, 2^64) and an [int] a [Z] in [-2^31, 2^31).  Heap buffers created by
    [new T[n]] live in an explicit store, so that pointer identity and
    sharing between containers are visible. *)

From Stdlib Require Import ZArith Lia Sorted.
From stdpp Require Import base option list strings.

Local Open Scope Z_scope.

(** ** hw06-vector-h3ic/vector.h *)
Module Vector.

(** [size_t] arithmetic is modulo [2^64]; [int] overflow is undefined. *)
Definition SIZE_MOD : Z := 2 ^ 64.
Definition INT_MAX : Z := 2 ^ 31 - 1.

(** The loop of the sized constructor,
    [int power = 1; while (power < elem_num) power *= 2;].
    [power] is an [int]: doubling it beyond [INT_MAX] is undefined
    behaviour, rendered as [None].  The loop doubles a positive [int], so
    32 rounds of [fuel] always reach either the exit or the overflow. *)
Fixpoint grow_power (fuel : nat) (power elem_num : Z) : option Z :=
  if power <? elem_num then
    match fuel with
    | O => None
    | S fuel' =>
        if 2 * power <=? INT_MAX then grow_power fuel' (2 * power) elem_num
        else None
    end
  else Some power.

(** A power of two, and the smallest power of two above a bound. *)
Definition is_pow2 (c : Z) : Prop := ∃ k : Z, 0 ≤ k ∧ c = 2 ^ k.

Definition smallest_pow2_ge (c n : Z) : Prop :=
  is_pow2 c ∧ n ≤ c ∧ ∀ k : Z, 0 ≤ k → n ≤ 2 ^ k → c ≤ 2 ^ k.

Section vector_t.
Context {T : Type}.

(** What a slot holds right after [new T[n]]: [Some (T())] for a class
    type such as [std::string], [None] (an indeterminate value) for a
    scalar type such as [int]. *)
Variable default_init : option T.

Definition buffer : Type := list (option T).
(** The store of array allocations; an address is an index into it.
    Nothing is ever released: the destructor is defaulted and no member
    calls [delete[]]. *)
Definition heap : Type := list buffer.
(** [T *]; [None] is [nullptr]. *)
Definition ptr : Type := option nat.

Record vector_t : Type := mk_vector_t
  { capacity_ : Z;  (* size_t capacity_{0};  *)
    arr_ : ptr;     (* T *arr_{nullptr};     *)
    pos_ : Z        (* size_t pos_{0};       *) }.

(** [new T[n]] *)
Definition new_array (h : heap) (n : Z) : heap * ptr :=
  (h ++ [replicate (Z.to_nat n) default_init], Some (length h)).

(** [vector_t() = default;] with the default member initialisers. *)
Definition vector_default : vector_t :=
  {| capacity_ := 0; arr_ := None; pos_ := 0 |}.

(** [explicit vector_t(size_t elem_num, const T & = T())]: the fill value
    is an unnamed parameter and never used; [pos_] is set to 0 on both
    branches. *)
Definition vector_sized (h : heap) (elem_num : Z) (value : T)
  : option (heap * vector_t) :=
  if elem_num =? 0 then
    Some (h, {| capacity_ := 0; arr_ := None; pos_ := 0 |})
  else
    power ← grow_power 32 1 elem_num;
    let '(h', p) := new_array h power in
    Some (h', {| capacity_ := power; arr_ := p; pos_ := 0 |}).

(** [std::swap(pos_, other.pos_)] on the pair (this, other). *)
Definition swap_pos (p : vector_t * vector_t) : vector_t * vector_t :=
  let '(this, other) := p in
  ({| capacity_ := capacity_ this; arr_ := arr_ this; pos_ := pos_ other |},
   {| capacity_ := capacity_ other; arr_ := arr_ other; pos_ := pos_ this |}).

(** [void swap(vector_t &other)]: three times [std::swap(pos_, other.pos_)];
    [capacity_] and [arr_] are not mentioned. *)
Definition swap (this other : vector_t) : vector_t * vector_t :=
  swap_pos (swap_pos (swap_pos (this, other))).

(** [vector_t(const vector_t &other) : pos_{other.pos_} {}]: the other
    two members take their default member initialisers. *)
Definition vector_copy (other : vector_t) : vector_t :=
  {| capacity_ := 0; arr_ := None; pos_ := pos_ other |}.

(** [operator=]: [vector_t tmp(other); swap(tmp); return *this;] *)
Definition operator_assign (this other : vector_t) : vector_t :=
  let tmp := vector_copy other in
  fst (swap this tmp).

(** Accessors. *)
Definition size (v : vector_t) : Z := pos_ v.
Definition capacity (v : vector_t) : Z := capacity_ v.
Definition data (v : vector_t) : ptr := arr_ v.
Definition empty (v : vector_t) : bool :=
  match arr_ v with None => true | Some _ => false end.

(** [arr_[index]] read: undefined ([None]) through [nullptr], outside the
    allocation, or on an indeterminate slot. *)
Definition load (h : heap) (p : ptr) (index : Z) : option T :=
  a ← p; buf ← h !! a;
  if (0 <=? index) && (index <? Z.of_nat (length buf))
  then mjoin (buf !! Z.to_nat index) else None.

(** [arr_[index] = x] through the reference an accessor returns. *)
Definition store (h : heap) (p : ptr) (index : Z) (x : T) : option heap :=
  a ← p; buf ← h !! a;
  if (0 <=? index) && (index <? Z.of_nat (length buf))
  then Some (<[a := <[Z.to_nat index := Some x]> buf]> h) else None.

(** [operator[]], [front], [back]; [pos_ - 1] is [size_t] arithmetic. *)
Definition at_index (h : heap) (v : vector_t) (index : Z) : option T :=
  load h (arr_ v) index.
Definition front (h : heap) (v : vector_t) : option T :=
  load h (arr_ v) 0.
Definition back (h : heap) (v : vector_t) : option T :=
  load h (arr_ v) ((pos_ v - 1) mod SIZE_MOD).

(** *** Programs over the public interface

    A program state holds the containers declared so far and the heap.
    Operations name containers by their index of declaration, so that
    [a = a] and [a.swap(a)] are expressible. *)
Record machine : Type := mk_machine
  { objs : list vector_t; mem : heap }.

Inductive op : Type :=
| OpDefault                                 (* vector_t<T> v;          *)
| OpSized (elem_num : Z) (value : T)        (* vector_t<T> v(n, x);    *)
| OpCopy (other : nat)                      (* vector_t<T> v(other);   *)
| OpAssign (this other : nat)               (* this = other;           *)
| OpSwap (this other : nat)                 (* this.swap(other);       *)
| OpStore (this : nat) (index : Z) (x : T)  (* this[index] = x;        *)
| OpStoreFront (this : nat) (x : T)         (* this.front() = x;       *)
| OpStoreBack (this : nat) (x : T).         (* this.back() = x;        *)

Definition init : machine := {| objs := []; mem := [] |}.

(** One statement; [None] when it names no container, passes a count
    that is no [size_t], or has undefined behaviour. *)
Definition step (m : machine) (o : op) : option machine :=
  match o with
  | OpDefault =>
      Some {| objs := objs m ++ [vector_default]; mem := mem m |}
  | OpSized n x =>
      if (0 <=? n) && (n <? SIZE_MOD) then
        '(h, v) ← vector_sized (mem m) n x;
        Some {| objs := objs m ++ [v]; mem := h |}
      else None
  | OpCopy j =>
      b ← objs m !! j;
      Some {| objs := objs m ++ [vector_copy b]; mem := mem m |}
  | OpAssign i j =>
      a ← objs m !! i; b ← objs m !! j;
      Some {| objs := <[i := operator_assign a b]> (objs m); mem := mem m |}
  | OpSwap i j =>
      a ← objs m !! i; b ← objs m !! j;
      let '(a', b') := swap a b in
      Some {| objs := <[i := a']> (<[j := b']> (objs m)); mem := mem m |}
  | OpStore i k x =>
      a ← objs m !! i; h ← store (mem m) (arr_ a) k x;
      Some {| objs := objs m; mem := h |}
  | OpStoreFront i x =>
      a ← objs m !! i; h ← store (mem m) (arr_ a) 0 x;
      Some {| objs := objs m; mem := h |}
  | OpStoreBack i x =>
      a ← objs m !! i;
      h ← store (mem m) (arr_ a) ((pos_ a - 1) mod SIZE_MOD) x;
      Some {| objs := objs m; mem := h |}
  end.

Fixpoint run (m : machine) (os : list op) : option machine :=
  match os with
  | [] => Some m
  | o :: os' => m' ← step m o; run m' os'
  end.

(** Modelled from the spec: [next_pow2], the one growth policy of the
    spec (§4.1, §9), "the smallest power of two ≥ the new required
    size"; vector.h has no growth path of its own. *)
Definition next_pow2 (n : Z) : Z :=
  if n <=? 0 then 0 else 2 ^ Z.log2_up n.

(** Modelled from the spec: [push_back(v)], which main.cpp calls and
    vector.h does not define: "append v at size, size += 1", "grow if
    size would exceed capacity", growth reallocating to [next_pow2] of
    the new size and keeping the live elements [[0, size)]. *)
Definition push_back (h : heap) (v : vector_t) (x : T) : heap * vector_t :=
  let new_size := pos_ v + 1 in
  if capacity_ v <? new_size then
    let cap := next_pow2 new_size in
    let live := take (Z.to_nat (pos_ v)) (default [] (arr_ v ≫= λ a, h !! a)) in
    let buf :=
      live ++ [Some x] ++ replicate (Z.to_nat (cap - new_size)) default_init in
    (h ++ [buf],
     {| capacity_ := cap; arr_ := Some (length h); pos_ := new_size |})
  else
    (default h (store h (arr_ v) (pos_ v) x),
     {| capacity_ := capacity_ v; arr_ := arr_ v; pos_ := new_size |}).

(** The capacities observed after each of a series of [push_back]s. *)
Fixpoint push_back_capacities (h : heap) (v : vector_t) (xs : list T)
  : list Z :=
  match xs with
  | [] => []
  | x :: xs' =>
      let '(h', v') := push_back h v x in
      capacity v' :: push_back_capacities h' v' xs'
  end.

(** What holds of every container a program can reach: no operation of
    vector.h ever makes [pos_] nonzero, and only the sized constructor
    sets [capacity_]. *)
Definition reach_inv (v : vector_t) : Prop :=
  pos_ v = 0 ∧ (capacity_ v = 0 ∨ is_pow2 (capacity_ v)).

(** The capacity law for one container. *)
Definition capacity_ok (v : vector_t) : Prop :=
  (capacity v = 0 ∨ is_pow2 (capacity v)) ∧ size v ≤ capacity v.

End vector_t.

Arguments machine : clear implicits.
Arguments op : clear implicits.
Arguments heap : clear implicits.
Arguments init : clear implicits.

(** *** The shape of the heap a program leaves

    The container at index [i] owns its buffer: its size is 0, its
    capacity is at most [2^30], it has no buffer exactly when its capacity
    is 0, and otherwise its buffer is allocated, has exactly [capacity_]
    slots, and is the buffer of no other container. *)
Definition owns_buffer {T : Type} (m : machine T) (i : nat) (a : vector_t)
  : Prop :=
  pos_ a = 0 ∧ 0 ≤ capacity_ a ≤ 2 ^ 30
  ∧ match arr_ a with
    | None => capacity_ a = 0
    | Some p =>
        0 < capacity_ a
        ∧ (∃ buf, mem m !! p = Some buf ∧ Z.of_nat (length buf) = capacity_ a)
        ∧ ∀ j b, objs m !! j = Some b → arr_ b = Some p → j = i
    end.

Definition heap_ok {T : Type} (m : machine T) : Prop :=
  ∀ i a, objs m !! i = Some a → owns_buffer m i a.

(** *** Sample programs over [vector_t<std::string>] *)

Local Open Scope string_scope.

(** [new std::string[n]] default-constructs every slot. *)
Definition string_init : option string := Some EmptyString.

(** [vector_t<std::string> v(10, "abacaba");] on an empty heap. *)
Definition ten_abacaba : option (heap string * vector_t) :=
  vector_sized string_init [] 10 "abacaba".

(** [vector_t<std::string> a(10, "abacaba"), b; a.swap(b);] *)
Definition swap_program : list (op string) :=
  [OpSized 10 "abacaba"; OpDefault; OpSwap 0 1].

(** [vector_t<std::string> v(10, "abacaba"), empty_v; v = empty_v;] *)
Definition assign_program : list (op string) :=
  [OpSized 10 "abacaba"; OpDefault; OpAssign 0 1].

(** A longer program touching every operation. *)
Definition mixed_program : list (op string) :=
  [OpSized 10 "abacaba"; OpDefault; OpSwap 0 1; OpCopy 0; OpAssign 1 0;
   OpStore 0 3 "b"; OpStoreFront 0 "c"; OpAssign 0 0; OpSized 5 "xxx";
   OpSwap 3 0; OpSwap 2 2].

(** A container as the narrowing-copy test has it before the copy: seven
    live elements in a buffer of sixteen. *)
Definition narrow_heap : heap string := [replicate 16 (Some "abacaba")].
Definition narrow_src : vector_t :=
  {| capacity_ := 16; arr_ := Some 0%nat; pos_ := 7 |}.


End Vector.

(** ** hw01-sudoku-h3ic/sudoku-solver.cpp and field-checker.cpp *)
Module Sudoku.

Local Open Scope nat_scope.

(** Modelled from the spec: the constant [FIELD_SIZE] of the header
    sudoku-solver.h, which both sources include; the spec fixes the grid
    at 9×9 with values 0–9. *)
Definition FIELD_SIZE : nat := 9.

(** [std::vector<std::vector<int>>]; loop indices are naturals, cell values
    are [int]s.  [field[row][col]] on a grid that lacks the cell is
    undefined in C++; the model reads 0 there, and every theorem below is
    about well-shaped grids, where no such access happens. *)
Abbreviation grid := (list (list Z)).

Definition cell (field : grid) (p : nat * nat) : Z :=
  default 0%Z (field !! p.1 ≫= λ r, r !! p.2).

(** [field[row][col] = value] *)
Definition set_cell (field : grid) (p : nat * nat) (value : Z) : grid :=
  alter (λ r, <[p.2 := value]> r) p.1 field.

(** All positions in the order of the loops
    [for row in 0..FIELD_SIZE) for col in 0..FIELD_SIZE)]. *)
Definition positions : list (nat * nat) :=
  row ← seq 0 FIELD_SIZE; col ← seq 0 FIELD_SIZE; [(row, col)].

(** A [FIELD_SIZE] × [FIELD_SIZE] grid. *)
Definition is_grid (field : grid) : Prop :=
  length field = FIELD_SIZE ∧ Forall (λ r, length r = FIELD_SIZE) field.

(** *** sudoku-solver.cpp *)

(** [std::set<int>] as its ascending sequence of elements, which is the
    order a range-for visits them in. *)
Fixpoint set_insert (x : Z) (s : list Z) : list Z :=
  match s with
  | [] => [x]
  | y :: s' =>
      if (x <? y)%Z then x :: s
      else if (x =? y)%Z then s
      else y :: set_insert x s'
  end.

Definition set_erase (x : Z) (s : list Z) : list Z :=
  filter (λ y, y ≠ x) s.

Definition find_possible_values (field : grid) (empty_pos : nat * nat)
  : list Z :=
  (* fill initial set with values 1-9 *)
  let possible_values :=
    foldl (λ s i, set_insert (Z.of_nat i) s) [] (seq 1 FIELD_SIZE) in
  let row := empty_pos.1 in
  let col := empty_pos.2 in
  (* in rows and cols *)
  let possible_values :=
    foldl (λ s i, set_erase (cell field (i, col))
                    (set_erase (cell field (row, i)) s))
          possible_values (seq 0 FIELD_SIZE) in
  (* in blocks; left upper corner of a block *)
  let row_block_corner := row - row mod 3 in
  let col_block_corner := col - col mod 3 in
  foldl (λ s i, foldl (λ s j, set_erase (cell field (i, j)) s) s
                      (seq col_block_corner 3))
        possible_values (seq row_block_corner 3).

(** The first position holding 0, in row-major order; [None] stands for
    the pair [{-1, -1}] returned when there is none. *)
Definition find_empty_position (field : grid) : option (nat * nat) :=
  snd <$> list_find (λ p, cell field p = 0%Z) positions.

Definition is_complete (field : grid) : bool :=
  bool_decide (Forall (λ p, cell field p ≠ 0%Z) positions).

(** [size_t solve_recursively(std::vector<std::vector<int>> field)].
    [fuel] bounds the depth of nested calls and is the only addition of
    the model; the result is [None] when it runs out.  The loop over
    [possible_values] writes into the one local [field], which each call
    receives by value; [sum] is a [size_t]. *)
Fixpoint solve_recursively (fuel : nat) (field : grid) : option Z :=
  match fuel with
  | O => None
  | S fuel' =>
      if is_complete field then Some 1%Z
      else
        empty_pos ← find_empty_position field;
        let possible_values := find_possible_values field empty_pos in
        snd <$>
          foldl (λ st value,
                   '(field, sum) ← st;
                   let field := set_cell field empty_pos value in
                   r ← solve_recursively fuel' field;
                   Some (field, ((sum + r) mod Vector.SIZE_MOD)%Z))
                (Some (field, 0%Z)) possible_values
  end.

(** Depth that no 9×9 grid exceeds: one call per cell and the final one. *)
Definition DEPTH : nat := S (FIELD_SIZE * FIELD_SIZE).

(** [sudoku_solve]: the count is the first component.  The second one is
    written [*solution] in the source, for the local empty vector
    [solution]; it is rendered as that empty vector. *)
Definition sudoku_solve (field : grid) : option (Z * grid) :=
  let solution : grid := [] in
  (* if initial field is full *)
  if is_complete field then Some (1%Z, field)
  else
    let non_const_field := field in
    n ← solve_recursively DEPTH non_const_field;
    Some (n, solution).

(** *** field-checker.cpp *)

(** [std::unique]: of every run of equal neighbours only the first stays. *)
Fixpoint unique (element : list Z) : list Z :=
  match element with
  | [] => []
  | x :: rest =>
      match rest with
      | [] => [x]
      | y :: _ => if (x =? y)%Z then unique rest else x :: unique rest
      end
  end.

(** [is_unique]: the iterator [std::unique] returns is [end()] exactly
    when nothing was removed. *)
Definition is_unique (element : list Z) : bool :=
  bool_decide (length (unique element) = length element).

(** [for (i = start; cond(i); i += step)], the indices visited. *)
Fixpoint for_loop (fuel : nat) (i step : nat) (cond : nat → bool) : list nat :=
  match fuel with
  | O => []
  | S fuel' => if cond i then i :: for_loop fuel' (i + step) step cond else []
  end.

(** The corners the block loops visit:
    [row <= FIELD_SIZE - 3] but [col < FIELD_SIZE - 3]. *)
Definition block_corner_rows : list nat :=
  for_loop FIELD_SIZE 0 3 (λ row, row <=? FIELD_SIZE - 3).
Definition block_corner_cols : list nat :=
  for_loop FIELD_SIZE 0 3 (λ col, col <? FIELD_SIZE - 3).

Definition check_field (init_field solution : grid) : bool :=
  if negb (forallb (λ p,
        (* if values in solution are in range *)
        negb ((cell solution p <=? 0)%Z || (cell solution p >? Z.of_nat FIELD_SIZE)%Z)
        (* if original values are preserved *)
        && negb (negb (cell init_field p =? 0)%Z
                 && negb (cell solution p =? cell init_field p)%Z))
      positions) then false
  (* if values in rows are unique *)
  else if negb (forallb (λ row, is_unique (default [] (solution !! row)))
                  (seq 0 FIELD_SIZE)) then false
  (* if values in columns are unique *)
  else if negb (forallb (λ col,
                   is_unique ((λ row, cell solution (row, col)) <$> seq 0 FIELD_SIZE))
                  (seq 0 FIELD_SIZE)) then false
  (* if values in blocks are unique *)
  else if negb (forallb (λ row, forallb (λ col,
                   is_unique (i ← seq 0 3; j ← seq 0 3;
                              [cell solution (row + i, col + j)]))
                  block_corner_cols) block_corner_rows) then false
  else true.

(** *** What the spec asks of a solution *)

(** The 27 units: rows, columns and 3×3 blocks, as lists of positions. *)
Definition row_unit (row : nat) : list (nat * nat) :=
  (λ col, (row, col)) <$> seq 0 FIELD_SIZE.
Definition col_unit (col : nat) : list (nat * nat) :=
  (λ row, (row, col)) <$> seq 0 FIELD_SIZE.
Definition block_unit (b : nat) : list (nat * nat) :=
  i ← seq (3 * (b / 3)) 3; j ← seq (3 * (b mod 3)) 3; [(i, j)].
Definition units : list (list (nat * nat)) :=
  (row_unit <$> seq 0 FIELD_SIZE) ++ (col_unit <$> seq 0 FIELD_SIZE)
  ++ (block_unit <$> seq 0 FIELD_SIZE).

(** Every nonzero prefilled value is preserved. *)
Definition preserved (init_field solution : grid) : Prop :=
  Forall (λ p, cell init_field p ≠ 0%Z → cell solution p = cell init_field p)
         positions.

(** Every cell is in 1..9. *)
Definition in_range (solution : grid) : Prop :=
  Forall (λ p, (1 ≤ cell solution p ≤ Z.of_nat FIELD_SIZE)%Z) positions.

(** No row, column or block contains a value twice. *)
Definition no_duplicates (solution : grid) : Prop :=
  Forall (λ u, NoDup (cell solution <$> u)) units.

(** The property [check_field] is specified to decide. *)
Definition valid_solution (init_field solution : grid) : Prop :=
  preserved init_field solution ∧ in_range solution ∧ no_duplicates solution.

(** A valid completion of [field]: a 9×9 grid that is a valid solution. *)
Definition valid_completion (field g : grid) : Prop :=
  is_grid g ∧ valid_solution field g.

(** [n] is the number of valid completions of [field]. *)
Definition counts_completions (field : grid) (n : Z) : Prop :=
  ∃ l : list grid,
    NoDup l ∧ (∀ g, g ∈ l ↔ valid_completion field g) ∧ n = Z.of_nat (length l).

(** The prefilled values are consistent: they lie in 0..9 and no unit
    holds a nonzero value twice. *)
Definition consistent (field : grid) : Prop :=
  Forall (λ p, (0 ≤ cell field p ≤ Z.of_nat FIELD_SIZE)%Z) positions
  ∧ Forall (λ u, NoDup (filter (λ v, v ≠ 0%Z) (cell field <$> u))) units.

(** The cells [find_possible_values] reads for the position [p], in the
    order of its loops. *)
Definition seen_from (p : nat * nat) : list (nat * nat) :=
  (i ← seq 0 FIELD_SIZE; [(p.1, i); (i, p.2)])
  ++ (i ← seq (p.1 - p.1 mod 3) 3; j ← seq (p.2 - p.2 mod 3) 3; [(i, j)]).

(** [g] fills the empty cells of [field] the way the search does: a
    prefilled cell keeps its value, a filled cell holds a value of 1..9
    that no other cell seen from it holds. *)
Definition fills (field g : grid) : Prop :=
  is_grid g
  ∧ Forall (λ p,
      (cell field p ≠ 0%Z → cell g p = cell field p)
      ∧ (cell field p = 0%Z →
         (1 ≤ cell g p ≤ Z.of_nat FIELD_SIZE)%Z
         ∧ Forall (λ q, q = p ∨ cell g q ≠ cell g p) (seen_from p)))
    positions.

(** The number of empty cells. *)
Definition zeros (field : grid) : nat :=
  length (filter (λ p, cell field p = 0%Z) positions).

(** The complete grids at which [solve_recursively] returns 1, in the
    order the search reaches them. *)
Fixpoint completions (fuel : nat) (field : grid) : list grid :=
  match fuel with
  | O => []
  | S fuel' =>
      if is_complete field then [field]
      else
        match find_empty_position field with
        | None => []
        | Some empty_pos =>
            value ← find_possible_values field empty_pos;
            completions fuel' (set_cell field empty_pos value)
        end
  end.

(** Sample grids. *)
Definition zero_grid : grid := replicate 9 (replicate 9 0%Z).
Definition ones_grid : grid := replicate 9 (replicate 9 1%Z).
(** [(row + col) mod 2 + 1]: a chessboard of 1s and 2s. *)
Definition chessboard : grid :=
  (λ row, (λ col, Z.of_nat ((row + col) mod 2 + 1)) <$> seq 0 9) <$> seq 0 9.
(** A solved sudoku, and the same grid with four cells emptied. *)
Definition solved : grid :=
  [ [5;3;4;6;7;8;9;1;2]; [6;7;2;1;9;5;3;4;8]; [1;9;8;3;4;2;5;6;7];
    [8;5;9;7;6;1;4;2;3]; [4;2;6;8;5;3;7;9;1]; [7;1;3;9;2;4;8;5;6];
    [9;6;1;5;3;7;2;8;4]; [2;8;7;4;1;9;6;3;5]; [3;4;5;2;8;6;1;7;9] ]%Z.
Definition puzzle : grid :=
  [ [5;3;0;6;7;8;9;1;2]; [6;7;2;1;9;5;3;4;8]; [1;9;8;3;4;2;5;6;7];
    [8;5;9;7;6;1;4;2;3]; [4;2;6;8;0;3;7;9;1]; [7;1;3;9;2;4;8;5;6];
    [9;6;1;5;3;7;2;8;4]; [2;8;7;4;1;9;6;3;0]; [0;4;5;2;8;6;1;7;9] ]%Z.

(** The chessboard with a 3 at (0, 8) and at (1, 6): the block in the
    upper right corner then reads 1 2 3 / 3 1 2 / 1 2 1. *)
Definition chessboard_33 : grid :=
  set_cell (set_cell chessboard (0, 8) 3%Z) (1, 6) 3%Z.

End Sudoku.

(** ** Facts about [vector_t] *)
Module VectorFacts.
Import Vector.

(** *** The doubling loop of the sized constructor *)

Lemma pow2_double (k : Z) : 0 ≤ k → 2 * 2 ^ k = 2 ^ (k + 1).
Proof. intros. rewrite Z.pow_add_r by lia. lia. Qed.

Lemma pow2_ge_1 (j : Z) : 0 ≤ j → 2 ^ 0 ≤ 2 ^ j.
Proof. intros. apply Z.pow_le_mono_r; lia. Qed.

Lemma pow2_le_inv (a b : Z) : 0 ≤ a → 0 ≤ b → 2 ^ a < 2 ^ b → a < b.
Proof. intros ? ?. apply Z.pow_lt_mono_r_iff; lia. Qed.

Lemma pow2_minimal (k n j : Z) :
  0 ≤ k → (k = 0 ∨ 2 ^ (k - 1) < n) → 0 ≤ j → n ≤ 2 ^ j → 2 ^ k ≤ 2 ^ j.
Proof.
  intros Hk Hprev Hj Hn. apply Z.pow_le_mono_r; [lia|].
  destruct (decide (k = 0)) as [->|Hk0]; [done|].
  destruct Hprev as [->|Hprev]; [done|].
  assert (k - 1 < j) by (apply pow2_le_inv; lia). lia.
Qed.

(** Started on a power of two that is still needed, the loop stops on the
    smallest power of two that reaches [elem_num]. *)
Lemma grow_power_sound (fuel : nat) :
  ∀ k n q, 0 ≤ k → (k = 0 ∨ 2 ^ (k - 1) < n) →
    grow_power fuel (2 ^ k) n = Some q → smallest_pow2_ge q n.
Proof.
  induction fuel as [|fuel IH]; intros k n q Hk Hprev; simpl;
    destruct (Z.ltb_spec (2 ^ k) n) as [Hlt|Hge]; try discriminate.
  - intros [= <-]. split; [by exists k|]. split; [lia|].
    intros j Hj Hn. by apply (pow2_minimal k n).
  - destruct (Z.leb_spec (2 * 2 ^ k) INT_MAX); [|discriminate].
    rewrite pow2_double by done. apply IH; [lia|].
    right. by replace (k + 1 - 1) with k by lia.
  - intros [= <-]. split; [by exists k|]. split; [lia|].
    intros j Hj Hn. by apply (pow2_minimal k n).
Qed.

(** Up to [2^30] elements the loop does exit, within its 32 rounds. *)
Lemma grow_power_total (fuel : nat) :
  ∀ k n, 0 ≤ k → n ≤ 2 ^ 30 → 30 - k < Z.of_nat fuel →
    is_Some (grow_power fuel (2 ^ k) n).
Proof.
  induction fuel as [|fuel IH]; intros k n Hk Hn Hfuel; simpl;
    destruct (Z.ltb_spec (2 ^ k) n) as [Hlt|Hge]; try done.
  - assert (k < 30) by (apply pow2_le_inv; lia). lia.
  - assert (k < 30) by (apply pow2_le_inv; lia).
    assert (2 ^ (k + 1) ≤ 2 ^ 30) by (apply Z.pow_le_mono_r; lia).
    rewrite pow2_double by done.
    destruct (Z.leb_spec (2 ^ (k + 1)) INT_MAX) as [_|Hov].
    + apply IH; lia.
    + unfold INT_MAX in Hov. lia.
Qed.

Section facts.
Context {T : Type} (default_init : option T).
Implicit Types (v a b : vector_t) (h : heap T) (m : machine T).

(** What the sized constructor builds when it returns. *)
Lemma vector_sized_inv h n x h' v :
  vector_sized default_init h n x = Some (h', v) →
  size v = 0 ∧
  (n = 0 ∧ capacity v = 0 ∧ data v = None ∧ h' = h
   ∨ n ≠ 0 ∧ smallest_pow2_ge (capacity v) n ∧ data v = Some (length h)
     ∧ h' = h ++ [replicate (Z.to_nat (capacity v)) default_init]).
Proof.
  unfold vector_sized. destruct (Z.eqb_spec n 0) as [->|Hn].
  - intros [= <- <-]. split; [done|]. by left.
  - destruct (grow_power 32 1 n) as [power|] eqn:Hp; [|done]. simpl.
    intros [= <- <-]. split; [done|]. right.
    split; [done|]. split; [|done].
    apply (grow_power_sound 32 0 n power); [lia|by left|done].
Qed.

(** It returns for every count up to [2^30]. *)
Lemma vector_sized_total h n x :
  0 ≤ n ≤ 2 ^ 30 → is_Some (vector_sized default_init h n x).
Proof.
  intros Hn. unfold vector_sized. destruct (n =? 0); [done|].
  destruct (grow_power_total 32 0 n) as [power Hp]; [lia..|].
  change (2 ^ 0) with 1 in Hp. by rewrite Hp.
Qed.

Lemma swap_eq a b :
  swap a b =
    ({| capacity_ := capacity_ a; arr_ := arr_ a; pos_ := pos_ b |},
     {| capacity_ := capacity_ b; arr_ := arr_ b; pos_ := pos_ a |}).
Proof. reflexivity. Qed.

Lemma operator_assign_eq a b :
  operator_assign a b =
    {| capacity_ := capacity_ a; arr_ := arr_ a; pos_ := pos_ b |}.
Proof. reflexivity. Qed.

(** *** The invariant of every reachable state *)

Lemma step_inv m o m' :
  step default_init m o = Some m' →
  Forall reach_inv (objs m) → Forall reach_inv (objs m').
Proof.
  intros Hstep Hinv. destruct o; simpl in Hstep.
  - injection Hstep as <-. simpl. apply Forall_app. split; [done|].
    apply Forall_singleton. split; [done|by left].
  - destruct (_ && _); [|done].
    destruct (vector_sized _ _ _ _) as [[h v]|] eqn:Hs; [|done].
    injection Hstep as <-. simpl. apply Forall_app. split; [done|].
    apply vector_sized_inv in Hs as [Hsz Hcap].
    apply Forall_singleton. split; [done|].
    unfold capacity in Hcap.
    destruct Hcap as [(_ & -> & _)|(_ & [? _] & _)]; [by left|by right].
  - destruct (objs m !! other) as [b|] eqn:Hb; [|done].
    injection Hstep as <-. simpl. apply Forall_app. split; [done|].
    apply Forall_singleton. split; simpl; [|by left].
    by apply (Forall_lookup_1 _ _ _ _ Hinv Hb).
  - destruct (objs m !! this) as [a|] eqn:Ha; [|done].
    destruct (objs m !! other) as [b|] eqn:Hb; [|done].
    injection Hstep as <-. simpl. apply Forall_insert; [done|].
    rewrite operator_assign_eq.
    destruct (Forall_lookup_1 _ _ _ _ Hinv Ha) as [_ ?].
    destruct (Forall_lookup_1 _ _ _ _ Hinv Hb) as [? _].
    by split.
  - destruct (objs m !! this) as [a|] eqn:Ha; [|done].
    destruct (objs m !! other) as [b|] eqn:Hb; [|done].
    cbn in Hstep. injection Hstep as <-. simpl.
    destruct (Forall_lookup_1 _ _ _ _ Hinv Ha) as [? ?].
    destruct (Forall_lookup_1 _ _ _ _ Hinv Hb) as [? ?].
    apply Forall_insert; [apply Forall_insert|]; by try split.
  - destruct (objs m !! this) as [a|]; [|done]. simpl in Hstep.
    destruct (store _ _ _ _); [|done]. by injection Hstep as <-.
  - destruct (objs m !! this) as [a|]; [|done]. simpl in Hstep.
    destruct (store _ _ _ _); [|done]. by injection Hstep as <-.
  - destruct (objs m !! this) as [a|]; [|done]. simpl in Hstep.
    destruct (store _ _ _ _); [|done]. by injection Hstep as <-.
Qed.

Lemma run_inv os : ∀ m m',
  run default_init m os = Some m' →
  Forall reach_inv (objs m) → Forall reach_inv (objs m').
Proof.
  induction os as [|o os IH]; intros m m'; simpl.
  - by intros [= <-].
  - destruct (step default_init m o) as [m1|] eqn:Hstep; [|done].
    simpl. intros Hrun Hinv. eapply IH; [done|]. by eapply step_inv.
Qed.

Lemma reach_inv_capacity_ok v : reach_inv v → capacity_ok v.
Proof.
  intros [Hpos Hcap]. unfold capacity_ok, size, capacity.
  split; [done|]. rewrite Hpos.
  destruct Hcap as [->|(k & Hk & ->)]; [done|]. by apply Z.pow_nonneg.
Qed.
End facts.

(** *** The growth policy of the spec *)

Lemma next_pow2_smallest (n : Z) : 1 ≤ n → smallest_pow2_ge (next_pow2 n) n.
Proof.
  intros Hn. unfold next_pow2. destruct (Z.leb_spec n 0); [lia|].
  pose proof (Z.log2_up_nonneg n) as Hk.
  assert (n ≤ 2 ^ Z.log2_up n ∧ (Z.log2_up n = 0 ∨ 2 ^ (Z.log2_up n - 1) < n))
    as [Hle Hprev].
  { destruct (decide (n = 1)) as [->|Hn1]; [split; [done|by left]|].
    destruct (Z.log2_up_spec n) as [Hlo Hhi]; [lia|].
    split; [done|]. right. by rewrite <- Z.sub_1_r in Hlo. }
  split; [by eexists|]. split; [done|].
  intros j Hj Hnj. by apply (pow2_minimal _ n).
Qed.

(** *** The claims about [vector_t] *)

(** Without an operation that changes the size: after any sequence of
    the operations vector.h defines (default, sized and copy construction,
    copy assignment, swap, and the writes through [operator[]], [front()]
    and [back()]), every container has a capacity that is 0 or a power of
    two, and the size 0. *)
Lemma capacity_law_at_size_zero {T : Type} (default_init : option T)
    (os : list (op T)) (m : machine T) :
  run default_init (init T) os = Some m → Forall capacity_ok (objs m).
Proof.
  intros Hrun. eapply Forall_impl; [|apply reach_inv_capacity_ok].
  eapply run_inv; [exact Hrun|]. constructor.
Qed.

Lemma capacity_law_at_size_zero_witness :
  ∃ m, run string_init (init string) mixed_program = Some m
       ∧ Forall capacity_ok (objs m).
Proof.
  eexists. split; [reflexivity|].
  apply (capacity_law_at_size_zero string_init mixed_program). reflexivity.
Defined.


(** C2 (code evaluated at the failing input). [vector_t<std::string> v(10,
    "abacaba")] returns a container of capacity 16 whose size is 0, not 10,
    and whose first ten slots hold the empty string, not the fill value. *)
Theorem sized_constructor_ignores_count_and_value :
  ∃ h v, ten_abacaba = Some (h, v)
    ∧ size v = 0 ∧ capacity v = 16 ∧ empty v = false
    ∧ at_index h v <$> (Z.of_nat <$> seq 0 10) = replicate 10 (Some EmptyString).
Proof. do 2 eexists. split; [reflexivity|]. by repeat split. Qed.

(** C3 (code evaluated at the failing inputs). The copy constructor copies
    [pos_] alone: the copy has capacity 0 and no buffer whatever the size.
    Copy assignment therefore replaces the size only: after [v = empty_v]
    the ten-slot container still has capacity 16 and its buffer, and the
    copy of a container with seven live elements has capacity 0 and no
    element to read. *)
Theorem copy_copies_size_only :
  (∀ a, size (vector_copy a) = size a
        ∧ capacity (vector_copy a) = 0 ∧ data (vector_copy a) = None)
  ∧ (∀ this other,
        operator_assign this other =
          {| capacity_ := capacity_ this; arr_ := arr_ this;
             pos_ := pos_ other |})
  ∧ (objs <$> run string_init (init string) assign_program =
       Some [ {| capacity_ := 16; arr_ := Some 0%nat; pos_ := 0 |};
              {| capacity_ := 0; arr_ := None; pos_ := 0 |} ])
  ∧ (size (vector_copy narrow_src) = 7
     ∧ capacity (vector_copy narrow_src) = 0
     ∧ at_index narrow_heap narrow_src 0 = Some "abacaba"%string
     ∧ at_index narrow_heap (vector_copy narrow_src) 0 = None).
Proof. by repeat split. Qed.

(** C4 (code evaluated at the failing input). [swap] exchanges [pos_]
    three times, that is once, and nothing else: after [a.swap(b)] with
    [a] of capacity 16 and [b] default-constructed, [a] still has capacity
    16 and its buffer and [b] has capacity 0 and none. *)
Theorem swap_exchanges_size_only :
  (∀ a b,
      swap a b =
        ({| capacity_ := capacity_ a; arr_ := arr_ a; pos_ := pos_ b |},
         {| capacity_ := capacity_ b; arr_ := arr_ b; pos_ := pos_ a |}))
  ∧ (objs <$> run string_init (init string) swap_program =
       Some [ {| capacity_ := 16; arr_ := Some 0%nat; pos_ := 0 |};
              {| capacity_ := 0; arr_ := None; pos_ := 0 |} ]).
Proof. by split. Qed.

(** C5. With [push_back] as the spec describes it, five pushes into a
    default-constructed container show the capacities 1, 2, 4, 4, 8, and
    whenever a push exceeds the capacity the new capacity is the smallest
    power of two that is at least the new size. *)
Theorem push_back_capacity_sequence {T : Type} (default_init : option T) :
  (∀ x1 x2 x3 x4 x5 : T,
      push_back_capacities default_init [] vector_default [x1; x2; x3; x4; x5]
      = [1; 2; 4; 4; 8])
  ∧ (∀ (h : heap T) v x,
        0 ≤ size v → capacity v < size v + 1 →
        smallest_pow2_ge (capacity (push_back default_init h v x).2)
                         (size (push_back default_init h v x).2)).
Proof.
  split; [done|]. intros h v x Hsz Hcap. unfold push_back, size, capacity in *.
  destruct (Z.ltb_spec (capacity_ v) (pos_ v + 1)); [|lia]. simpl.
  apply next_pow2_smallest. lia.
Qed.

Lemma push_back_capacity_sequence_witness :
  smallest_pow2_ge
    (capacity (push_back string_init [] vector_default "a"%string).2)
    (size (push_back string_init [] vector_default "a"%string).2).
Proof.
  apply (proj2 (push_back_capacity_sequence string_init)); simpl; lia.
Defined.

(** C6. Self-assignment [a = a] leaves [a] unchanged: the same size, the
    same capacity, the same buffer, and so the same element at every
    index; as a statement of a program it leaves the whole state as it
    was. *)
Theorem self_assignment_unchanged {T : Type} (default_init : option T)
    (h : heap T) (a : vector_t) :
  operator_assign a a = a
  ∧ size (operator_assign a a) = size a
  ∧ capacity (operator_assign a a) = capacity a
  ∧ data (operator_assign a a) = data a
  ∧ (∀ index, at_index h (operator_assign a a) index = at_index h a index)
  ∧ (∀ (m : machine T) i,
        step default_init m (OpAssign i i) = (objs m !! i) ≫= λ _, Some m).
Proof.
  assert (operator_assign a a = a) as Heq by by destruct a.
  rewrite Heq. repeat split; try done.
  intros [os hp] i. simpl. destruct (os !! i) as [b|] eqn:Hb; [|done]. simpl.
  do 2 f_equal. rewrite operator_assign_eq.
  apply list_insert_id. by destruct b.
Qed.

(** C7 (code evaluated at the failing input). [empty()] tests the buffer
    pointer, not the size: the container built by [vector_t<std::string>
    v(10, "abacaba")] has size 0 and is not empty. *)
Theorem empty_tests_the_buffer :
  (∀ v, empty v = true ↔ data v = None)
  ∧ (∃ h v, ten_abacaba = Some (h, v) ∧ size v = 0 ∧ empty v = false).
Proof.
  split.
  - intros v. unfold empty, data. by destruct (arr_ v).
  - do 2 eexists. split; [reflexivity|]. by split.
Qed.

(** *** Further facts about [vector_t] *)

(** Beyond [2^30] elements the [int] counter of the sized constructor
    overflows before it reaches the count. *)
Lemma grow_power_overflow (fuel : nat) :
  ∀ k n, 0 ≤ k ≤ 30 → 2 ^ 30 < n → grow_power fuel (2 ^ k) n = None.
Proof.
  induction fuel as [|fuel IH]; intros k n Hk Hn; simpl;
    (assert (2 ^ k ≤ 2 ^ 30) by (apply Z.pow_le_mono_r; lia));
    destruct (Z.ltb_spec (2 ^ k) n) as [_|?]; try lia; [done|].
  rewrite pow2_double by lia.
  destruct (Z.leb_spec (2 ^ (k + 1)) INT_MAX) as [Hle|_]; [|done].
  destruct (decide (k = 30)) as [->|Hk30].
  - unfold INT_MAX in Hle. simpl in Hle. lia.
  - apply IH; lia.
Qed.

Lemma smallest_pow2_ge_lt_double (c n : Z) :
  1 ≤ n → smallest_pow2_ge c n → c < 2 * n.
Proof.
  intros Hn ((k & Hk & ->) & Hle & Hmin).
  destruct (decide (k = 0)) as [->|Hk0]; [simpl; lia|].
  destruct (Z.le_gt_cases n (2 ^ (k - 1))) as [Hsmall|Hbig].
  - specialize (Hmin (k - 1)).
    assert (2 ^ (k - 1) < 2 ^ k) by (apply Z.pow_lt_mono_r; lia). lia.
  - replace k with (k - 1 + 1) by lia. rewrite <- pow2_double by lia. lia.
Qed.

(** The sized constructor returns only for counts up to [2^30]. *)
Lemma vector_sized_Some_le {T : Type} (default_init : option T)
    (h : heap T) (elem_num : Z) (value : T) :
  is_Some (vector_sized default_init h elem_num value) → elem_num ≤ 2 ^ 30.
Proof.
  intros Hsome. destruct (Z.le_gt_cases elem_num (2 ^ 30)) as [|Hbig]; [done|].
  unfold vector_sized in Hsome.
  destruct (Z.eqb_spec elem_num 0) as [->|_]; [done|].
  change 1 with (2 ^ 0) in Hsome.
  rewrite (grow_power_overflow 32 0 elem_num) in Hsome by lia.
  by destruct Hsome.
Qed.

(** X1. The sized constructor is defined exactly for counts up to [2^30]:
    for a larger count the [int] [power] overflows, which is undefined. *)
Theorem vector_sized_defined_iff {T : Type} (default_init : option T)
    (h : heap T) (elem_num : Z) (value : T) :
  is_Some (vector_sized default_init h elem_num value) ↔ elem_num ≤ 2 ^ 30.
Proof.
  split; [apply vector_sized_Some_le|].
  intros Hle. unfold vector_sized. destruct (elem_num =? 0); [done|].
  destruct (grow_power_total 32 0 elem_num) as [power Hp]; [lia..|].
  change (2 ^ 0) with 1 in Hp. by rewrite Hp.
Qed.

(** X2. For a count [n] with [0 < n ≤ 2^30] the sized constructor returns
    a container whose capacity is the smallest power of two that is at
    least [n], hence below [2 n]; its buffer is a new allocation of
    exactly that many default-initialised slots, and every buffer that
    existed before reads as it did. *)
Theorem vector_sized_fresh_buffer {T : Type} (default_init : option T)
    (h : heap T) (elem_num : Z) (value : T) :
  0 < elem_num ≤ 2 ^ 30 →
  ∃ h' v,
    vector_sized default_init h elem_num value = Some (h', v)
    ∧ smallest_pow2_ge (capacity v) elem_num
    ∧ capacity v < 2 * elem_num
    ∧ data v = Some (length h)
    ∧ h' !! length h = Some (replicate (Z.to_nat (capacity v)) default_init)
    ∧ (∀ index, 0 ≤ index < capacity v → at_index h' v index = default_init)
    ∧ (∀ p index, (p < length h)%nat →
         load h' (Some p) index = load h (Some p) index).
Proof.
  intros Hn.
  destruct (vector_sized_total default_init h elem_num value) as [[h' v] Hs];
    [lia|].
  exists h', v. split; [done|].
  apply vector_sized_inv in Hs as [_ [[-> _]|(_ & Hsmall & Hdata & ->)]]; [lia|].
  assert (capacity v < 2 * elem_num) as Hlt
    by (apply smallest_pow2_ge_lt_double; [lia|done]).
  assert ((h ++ [replicate (Z.to_nat (capacity v)) default_init]) !! length h
          = Some (replicate (Z.to_nat (capacity v)) default_init)) as Hnew
    by by rewrite list_lookup_middle.
  split_and!; [done..| |].
  - intros index Hindex. unfold at_index, load. unfold data in Hdata.
    rewrite Hdata. simpl. unfold heap, buffer in *.
    rewrite Hnew. simpl. rewrite length_replicate.
    destruct (Z.leb_spec 0 index); [|lia].
    destruct (Z.ltb_spec index (Z.of_nat (Z.to_nat (capacity v)))); [|lia].
    simpl. rewrite lookup_replicate_2 by lia. done.
  - intros p index Hp. unfold load. simpl. unfold heap, buffer in *.
    destruct (lookup_lt_is_Some_2 h p Hp) as [buf Hbuf].
    by rewrite (lookup_app_l_Some _ _ _ _ Hbuf), Hbuf.
Qed.

Lemma vector_sized_fresh_buffer_witness :
  ∃ h' v,
    ten_abacaba = Some (h', v)
    ∧ smallest_pow2_ge (capacity v) 10
    ∧ capacity v < 2 * 10
    ∧ data v = Some 0%nat
    ∧ h' !! 0%nat = Some (replicate (Z.to_nat (capacity v)) string_init)
    ∧ (∀ index, 0 ≤ index < capacity v → at_index h' v index = string_init)
    ∧ (∀ p index, (p < 0)%nat →
         load h' (Some p) index = load (T:=string) [] (Some p) index).
Proof.
  apply (vector_sized_fresh_buffer string_init [] 10 "abacaba"%string).
  by vm_compute.
Defined.

(** *** Ownership of buffers *)

Section ownership.
Context {T : Type} (default_init : option T).
Implicit Types (a b v : vector_t) (m : machine T).

(** Replacing containers by ones with the same buffer and capacity. *)
Lemma heap_ok_same_buffers m (os : list vector_t) :
  heap_ok m →
  (∀ i a', os !! i = Some a' →
     ∃ a, objs m !! i = Some a ∧ arr_ a' = arr_ a
          ∧ capacity_ a' = capacity_ a ∧ pos_ a' = 0) →
  heap_ok {| objs := os; mem := mem m |}.
Proof.
  intros Hok Hsame i a' Ha'. simpl in *.
  destruct (Hsame i a' Ha') as (a & Ha & Harr & Hcap & Hpos).
  destruct (Hok i a Ha) as (_ & Hbound & Hbuf).
  unfold owns_buffer. rewrite Harr, Hcap. simpl.
  split; [done|]. split; [done|].
  destruct (arr_ a) as [p|]; [|done].
  destruct Hbuf as (Hpos' & Hmem & Huniq). split_and!; [done..|].
  intros j b' Hb' Hbp. destruct (Hsame j b' Hb') as (b & Hb & Hbarr & _).
  apply (Huniq j b); [done|congruence].
Qed.

(** Declaring a container that has no buffer, or a new one. *)
Lemma heap_ok_declare m v (extra : list (list (option T))) :
  heap_ok m → pos_ v = 0 → 0 ≤ capacity_ v ≤ 2 ^ 30 →
  (arr_ v = None ∧ capacity_ v = 0
   ∨ arr_ v = Some (length (mem m)) ∧ 0 < capacity_ v
     ∧ ∃ buf, extra = [buf] ∧ Z.of_nat (length buf) = capacity_ v) →
  heap_ok {| objs := objs m ++ [v]; mem := mem m ++ extra |}.
Proof.
  intros Hok Hpos Hbound Hv i a Ha. simpl in *. unfold heap, buffer in *.
  apply lookup_snoc_Some in Ha as [[Hi Ha]|[-> <-]].
  - destruct (Hok i a Ha) as (Hpa & Hba & Hbuf).
    split; [done|]. split; [done|].
    destruct (arr_ a) as [p|]; [|done].
    destruct Hbuf as (Hcap & (buf & Hmem & Hlen) & Huniq).
    split_and!; [done| |].
    + exists buf. split; [|done]. by apply lookup_app_l_Some.
    + simpl. intros j b [[_ Hb]|[-> <-]]%lookup_snoc_Some Hbp;
        [by apply (Huniq j b)|].
      apply lookup_lt_Some in Hmem.
      destruct Hv as [[Hnone _]|[Hsome _]]; [congruence|].
      rewrite Hsome in Hbp. injection Hbp as <-. lia.
  - split; [done|]. split; [done|].
    destruct Hv as [[-> Hc]|(-> & Hc & buf & -> & Hlen)]; [done|].
    split_and!; [done| |].
    + exists buf. split; [|done]. simpl. by apply list_lookup_middle.
    + simpl. intros j b [[_ Hb]|[-> _]]%lookup_snoc_Some Hbp; [|done].
      destruct (Hok j b Hb) as (_ & _ & Hbuf). rewrite Hbp in Hbuf.
      destruct Hbuf as (_ & (buf' & Hmem%lookup_lt_Some & _) & _). lia.
Qed.

(** A store keeps every buffer where it is and as long as it was. *)
Lemma store_lookup (h h' : list (list (option T))) (p : ptr) (k : Z) (x : T)
    (q : nat) (buf : list (option T)) :
  store h p k x = Some h' → h !! q = Some buf →
  ∃ buf', h' !! q = Some buf' ∧ length buf' = length buf.
Proof.
  unfold store. destruct p as [a|]; [|done]. simpl. unfold heap, buffer in *.
  destruct (h !! a) as [buf0|] eqn:Ha; [|done]. simpl.
  destruct (_ && _); [|done]. intros [= <-] Hq.
  destruct (decide (a = q)) as [->|Hne].
  - rewrite list_lookup_insert_eq by by eapply lookup_lt_Some.
    eexists. split; [done|]. rewrite length_insert. congruence.
  - rewrite list_lookup_insert_ne by done. eauto.
Qed.

Lemma heap_ok_store m (h' : list (list (option T))) (p : ptr) (k : Z) (x : T) :
  heap_ok m → store (mem m) p k x = Some h' →
  heap_ok {| objs := objs m; mem := h' |}.
Proof.
  intros Hok Hstore i a Ha. simpl in *.
  destruct (Hok i a Ha) as (Hpa & Hba & Hbuf).
  split; [done|]. split; [done|]. destruct (arr_ a) as [q|]; [|done].
  destruct Hbuf as (Hcap & (buf & Hmem & Hlen) & Huniq).
  split_and!; [done| |done]. simpl.
  destruct (store_lookup _ _ _ _ _ _ _ Hstore Hmem) as (buf' & Hmem' & Hlen').
  exists buf'. split; [done|]. by rewrite Hlen'.
Qed.

Lemma step_heap_ok m o m' :
  step default_init m o = Some m' → heap_ok m → heap_ok m'.
Proof.
  intros Hstep Hok. destruct o; simpl in Hstep.
  - injection Hstep as <-.
    rewrite <- (app_nil_r (mem m)).
    apply heap_ok_declare; [done..|by left].
  - destruct (_ && _); [|done].
    destruct (vector_sized _ _ _ _) as [[h v]|] eqn:Hs; [|done].
    injection Hstep as <-.
    assert (elem_num ≤ 2 ^ 30) as Hle
      by (apply (vector_sized_Some_le default_init (mem m) _ value);
          by rewrite Hs).
    apply vector_sized_inv in Hs as [Hsz Hcap]. unfold size, capacity, data in *.
    destruct Hcap as [(-> & Hc & Hd & ->)|(Hn & Hsmall & Hd & ->)].
    + rewrite <- (app_nil_r (mem m)).
      apply heap_ok_declare; [done|done|lia|by left].
    + destruct Hsmall as ((k & Hk & Hck) & Hge & Hmin).
      assert (0 < capacity_ v)
        by (rewrite Hck; by apply Z.pow_pos_nonneg).
      assert (capacity_ v ≤ 2 ^ 30) by (apply Hmin; lia).
      apply heap_ok_declare; [done|done|lia|]. right.
      split_and!; [done..|]. eexists. split; [done|].
      rewrite length_replicate. lia.
  - destruct (objs m !! other) as [b|] eqn:Hb; [|done].
    injection Hstep as <-. destruct (Hok other b Hb) as (Hpos & _).
    rewrite <- (app_nil_r (mem m)).
    apply heap_ok_declare; [done|done|done|by left].
  - destruct (objs m !! this) as [a|] eqn:Ha; [|done].
    destruct (objs m !! other) as [b|] eqn:Hb; [|done].
    injection Hstep as <-. apply heap_ok_same_buffers; [done|].
    intros i a' Ha'. rewrite operator_assign_eq in Ha'.
    destruct (Hok other b Hb) as (Hpb & _).
    apply list_lookup_insert_Some in Ha' as [(<- & <- & _)|[_ Ha']].
    + exists a. by rewrite Ha.
    + exists a'. destruct (Hok i a' Ha') as (? & _). by rewrite Ha'.
  - destruct (objs m !! this) as [a|] eqn:Ha; [|done].
    destruct (objs m !! other) as [b|] eqn:Hb; [|done].
    cbn in Hstep. injection Hstep as <-. apply heap_ok_same_buffers; [done|].
    destruct (Hok this a Ha) as (Hpa & _).
    destruct (Hok other b Hb) as (Hpb & _).
    intros i c Hc.
    apply list_lookup_insert_Some in Hc as [(<- & <- & _)|[_ Hc]].
    { exists a. by rewrite Ha. }
    apply list_lookup_insert_Some in Hc as [(<- & <- & _)|[_ Hc]].
    { exists b. by rewrite Hb. }
    exists c. destruct (Hok i c Hc) as (? & _). by rewrite Hc.
  - destruct (objs m !! this) as [a|]; [|done]. simpl in Hstep.
    destruct (store _ _ _ _) as [h|] eqn:Hs; [|done]. injection Hstep as <-.
    by eapply heap_ok_store.
  - destruct (objs m !! this) as [a|]; [|done]. simpl in Hstep.
    destruct (store _ _ _ _) as [h|] eqn:Hs; [|done]. injection Hstep as <-.
    by eapply heap_ok_store.
  - destruct (objs m !! this) as [a|]; [|done]. simpl in Hstep.
    destruct (store _ _ _ _) as [h|] eqn:Hs; [|done]. injection Hstep as <-.
    by eapply heap_ok_store.
Qed.

Lemma run_heap_ok os : ∀ m m',
  run default_init m os = Some m' → heap_ok m → heap_ok m'.
Proof.
  induction os as [|o os IH]; intros m m'; simpl.
  - by intros [= <-].
  - destruct (step default_init m o) as [m1|] eqn:Hstep; [|done].
    simpl. intros Hrun Hok. eapply IH; [done|]. by eapply step_heap_ok.
Qed.

Lemma heap_ok_init : heap_ok (init T).
Proof. intros i a Ha. done. Qed.

(** A store is read back, and changes no other slot of any buffer. *)
Lemma load_store (h h' : list (list (option T))) (p : ptr) (k : Z) (x : T) :
  store h p k x = Some h' →
  load h' p k = Some x
  ∧ ∀ q index, q ≠ p ∨ index ≠ k → load h' q index = load h q index.
Proof.
  unfold store, load. destruct p as [a|]; [|done]. simpl.
  unfold heap, buffer in *.
  destruct (h !! a) as [buf|] eqn:Ha; [|done]. simpl.
  destruct (Z.leb_spec 0 k) as [Hk0|]; [|done].
  destruct (Z.ltb_spec k (Z.of_nat (length buf))) as [Hk|]; [|done].
  simpl. intros [= <-].
  pose proof (lookup_lt_Some _ _ _ Ha) as Hlt. split.
  - rewrite list_lookup_insert_eq by done. simpl. rewrite length_insert.
    destruct (Z.leb_spec 0 k); [|lia].
    destruct (Z.ltb_spec k (Z.of_nat (length buf))); [|lia].
    simpl. rewrite list_lookup_insert_eq by lia. done.
  - intros [q|] index Hne; [|done]. simpl.
    destruct (decide (a = q)) as [<-|Hq].
    + rewrite list_lookup_insert_eq, Ha by done. simpl.
      rewrite length_insert.
      destruct (Z.leb_spec 0 index); [|done].
      destruct (Z.ltb_spec index (Z.of_nat (length buf))); [|done].
      simpl. rewrite list_lookup_insert_ne; [done|].
      intros Heq. destruct Hne as [Hne|Hne]; [done|]. apply Hne. lia.
    + by rewrite list_lookup_insert_ne.
Qed.

(** X3. [a.swap(b)] followed by [b.swap(a)] leaves every container and
    the heap as they were, also when [a] and [b] are the same object. *)
Theorem swap_twice_restores m (i j : nat) a b :
  objs m !! i = Some a → objs m !! j = Some b →
  step default_init m (OpSwap i j)
    ≫= (λ m', step default_init m' (OpSwap j i)) = Some m.
Proof.
  destruct m as [os hp], a as [ca aa pa], b as [cb ab pb]. simpl.
  intros Ha Hb. rewrite Ha, Hb. cbn.
  pose proof (lookup_lt_Some _ _ _ Ha) as Hi.
  pose proof (lookup_lt_Some _ _ _ Hb) as Hj.
  destruct (decide (i = j)) as [->|Hne].
  - assert (ca = cb ∧ aa = ab ∧ pa = pb) as (-> & -> & ->)
      by (rewrite Ha in Hb; by injection Hb).
    rewrite list_insert_insert_eq, (list_insert_id os j) by done.
    rewrite Hb. cbn. by rewrite list_insert_insert_eq, list_insert_id.
  - rewrite (list_lookup_insert_ne _ i j) by done.
    rewrite !list_lookup_insert_eq by (by rewrite ?length_insert).
    cbn. do 2 f_equal.
    rewrite list_insert_insert_eq, (list_insert_insert_ne _ i j) by done.
    rewrite list_insert_insert_eq.
    by rewrite (list_insert_id os i), (list_insert_id os j).
Qed.

(** X4. In every state a program reaches, each container owns its buffer:
    its size is 0 and its capacity at most [2^30]; it has no buffer
    exactly when its capacity is 0; otherwise its buffer is allocated,
    has exactly as many slots as the capacity says, and belongs to no
    other container. *)
Theorem reachable_heap_ok (os : list (op T)) m :
  run default_init (init T) os = Some m → heap_ok m.
Proof. intros Hrun. eapply run_heap_ok; [done|apply heap_ok_init]. Qed.

(** X5. In a reachable state a write [v[k] = x] with [0 ≤ k < capacity]
    is defined, is read back by [v[k]], leaves all containers as they
    are, and changes no other element of [v] and no element of any other
    container. *)
Theorem store_isolated (os : list (op T)) m (i : nat) a (k : Z) (x : T) :
  run default_init (init T) os = Some m →
  objs m !! i = Some a → 0 ≤ k < capacity a →
  ∃ m',
    step default_init m (OpStore i k x) = Some m'
    ∧ objs m' = objs m
    ∧ at_index (mem m') a k = Some x
    ∧ ∀ (j : nat) b (index : Z),
        objs m !! j = Some b → j ≠ i ∨ index ≠ k →
        at_index (mem m') b index = at_index (mem m) b index.
Proof.
  intros Hrun Ha Hk. unfold capacity in Hk.
  pose proof (run_heap_ok _ _ _ Hrun heap_ok_init) as Hok.
  destruct (Hok i a Ha) as (_ & _ & Hbuf).
  destruct (arr_ a) as [p|] eqn:Hp; [|lia].
  destruct Hbuf as (_ & (buf & Hmem & Hlen) & Huniq).
  assert (∃ h', store (mem m) (Some p) k x = Some h') as [h' Hstore].
  { unfold store. simpl. unfold heap, buffer in *. rewrite Hmem. simpl.
    destruct (Z.leb_spec 0 k); [|lia].
    destruct (Z.ltb_spec k (Z.of_nat (length buf))); [|lia]. by eexists. }
  exists {| objs := objs m; mem := h' |}. simpl. rewrite Ha. simpl.
  rewrite Hp, Hstore. simpl.
  destruct (load_store _ _ _ _ _ Hstore) as [Hread Hother].
  split_and!; [done|done|by unfold at_index; rewrite Hp|].
  intros j b index Hb Hne. unfold at_index. apply Hother.
  destruct Hne as [Hne|Hne]; [|by right].
  left. intros Heq. apply Hne. by apply (Huniq j b).
Qed.

(** X6. In a reachable state [back()] is never defined, neither to read
    nor to write: the size is 0, so it addresses slot [2^64 - 1], which
    no buffer of at most [2^30] slots has. *)
Theorem back_undefined (os : list (op T)) m (i : nat) a (x : T) :
  run default_init (init T) os = Some m → objs m !! i = Some a →
  back (mem m) a = None ∧ step default_init m (OpStoreBack i x) = None.
Proof.
  intros Hrun Ha.
  pose proof (run_heap_ok _ _ _ Hrun heap_ok_init) as Hok.
  destruct (Hok i a Ha) as (Hpos & Hbound & Hbuf).
  assert ((pos_ a - 1) mod SIZE_MOD = 2 ^ 64 - 1) as Hlast
    by (by rewrite Hpos).
  simpl. rewrite Ha. simpl. unfold back. rewrite Hlast.
  destruct (arr_ a) as [p|]; [|done].
  destruct Hbuf as (_ & (buf & Hmem & Hlen) & _).
  unfold load, store. simpl. unfold heap, buffer in *. rewrite Hmem. simpl.
  destruct (Z.ltb_spec (2 ^ 64 - 1) (Z.of_nat (length buf))); [lia|].
  by destruct (0 <=? 2 ^ 64 - 1).
Qed.

End ownership.

Lemma reachable_heap_ok_witness :
  ∃ m, run string_init (init string) mixed_program = Some m ∧ heap_ok m.
Proof.
  eexists. split; [reflexivity|].
  apply (reachable_heap_ok string_init mixed_program). reflexivity.
Defined.

Lemma swap_twice_restores_witness :
  ∃ m, run string_init (init string) assign_program = Some m
    ∧ step string_init m (OpSwap 0 1)
        ≫= (λ m', step string_init m' (OpSwap 1 0)) = Some m.
Proof.
  eexists. split; [reflexivity|].
  eapply (swap_twice_restores string_init); reflexivity.
Defined.

Lemma store_isolated_witness :
  ∃ m a,
    run string_init (init string) swap_program = Some m
    ∧ objs m !! 0%nat = Some a
    ∧ ∃ m',
        step string_init m (OpStore 0 5 "z"%string) = Some m'
        ∧ objs m' = objs m
        ∧ at_index (mem m') a 5 = Some "z"%string
        ∧ ∀ (j : nat) b (index : Z),
            objs m !! j = Some b → j ≠ 0%nat ∨ index ≠ 5 →
            at_index (mem m') b index = at_index (mem m) b index.
Proof.
  do 2 eexists. split; [reflexivity|]. split; [reflexivity|].
  apply (store_isolated string_init swap_program); [reflexivity..|].
  by vm_compute.
Defined.

Lemma back_undefined_witness :
  ∃ m a,
    run string_init (init string) swap_program = Some m
    ∧ objs m !! 0%nat = Some a
    ∧ back (mem m) a = None
    ∧ step string_init m (OpStoreBack 0 "z"%string) = None.
Proof.
  do 2 eexists. split; [reflexivity|]. split; [reflexivity|].
  apply (back_undefined string_init swap_program); reflexivity.
Defined.

End VectorFacts.




(** ** Facts about the sudoku solver and the field checker *)
Module SudokuFacts.
Import Sudoku.

Local Open Scope nat_scope.

(** *** Grids *)

Lemma elem_of_positions (p : nat * nat) :
  p ∈ positions ↔ p.1 < FIELD_SIZE ∧ p.2 < FIELD_SIZE.
Proof.
  unfold positions. rewrite list_elem_of_bind. split.
  - intros (row & (col & Hp & Hcol%elem_of_seq)%list_elem_of_bind
              & Hrow%elem_of_seq).
    apply list_elem_of_singleton in Hp as ->. simpl. lia.
  - intros [Hrow Hcol]. exists p.1. split; [|apply elem_of_seq; lia].
    apply list_elem_of_bind. exists p.2. split; [|apply elem_of_seq; lia].
    destruct p. apply list_elem_of_singleton. done.
Qed.

Lemma NoDup_positions : NoDup positions.
Proof. apply (bool_decide_unpack _). by vm_compute. Qed.

Lemma length_positions : length positions = FIELD_SIZE * FIELD_SIZE.
Proof. reflexivity. Qed.

Lemma is_grid_lookup (field : grid) (p : nat * nat) :
  is_grid field → p ∈ positions →
  ∃ r, field !! p.1 = Some r ∧ length r = FIELD_SIZE
       ∧ r !! p.2 = Some (cell field p).
Proof.
  intros [Hlen Hrows] [Hrow Hcol]%elem_of_positions.
  destruct (lookup_lt_is_Some_2 field p.1) as [r Hr]; [lia|].
  assert (length r = FIELD_SIZE) as Hr9
    by by apply (Forall_lookup_1 _ _ _ _ Hrows Hr).
  destruct (lookup_lt_is_Some_2 r p.2) as [x Hx]; [lia|].
  exists r. split_and!; [done..|]. unfold cell. rewrite Hr. simpl. by rewrite Hx.
Qed.

Lemma is_grid_set_cell (field : grid) (p : nat * nat) (value : Z) :
  is_grid field → is_grid (set_cell field p value).
Proof.
  intros [Hlen Hrows]. unfold set_cell. split; [by rewrite length_alter|].
  apply Forall_lookup. intros i r.
  destruct (decide (p.1 = i)) as [<-|Hne].
  - rewrite list_lookup_alter_eq. intros (r0 & Hr0 & ->)%fmap_Some.
    rewrite length_insert. by apply (Forall_lookup_1 _ _ _ _ Hrows Hr0).
  - rewrite list_lookup_alter_ne by done. intros Hr.
    by apply (Forall_lookup_1 _ _ _ _ Hrows Hr).
Qed.

Lemma cell_set_cell_eq (field : grid) (p : nat * nat) (value : Z) :
  is_grid field → p ∈ positions → cell (set_cell field p value) p = value.
Proof.
  intros Hgrid Hp. destruct (is_grid_lookup field p) as (r & Hr & Hr9 & _);
    [done..|].
  apply elem_of_positions in Hp as [_ Hcol].
  unfold cell, set_cell. rewrite list_lookup_alter_eq, Hr. simpl.
  rewrite list_lookup_insert_eq by lia. done.
Qed.

Lemma cell_set_cell_ne (field : grid) (p q : nat * nat) (value : Z) :
  p ≠ q → cell (set_cell field p value) q = cell field q.
Proof.
  intros Hne. unfold cell, set_cell.
  destruct (decide (p.1 = q.1)) as [Heq|Hrow].
  - rewrite Heq, list_lookup_alter_eq. destruct (field !! q.1) as [r|]; [|done].
    simpl. rewrite list_lookup_insert_ne; [done|].
    intros Hcol. apply Hne. destruct p, q; simpl in *; congruence.
  - by rewrite list_lookup_alter_ne.
Qed.

(** Writing the same cell again overwrites the earlier value. *)
Lemma set_cell_set_cell (field : grid) (p : nat * nat) (v w : Z) :
  set_cell (set_cell field p v) p w = set_cell field p w.
Proof.
  unfold set_cell. rewrite list_alter_alter_eq.
  apply list_alter_ext; [|done]. intros r _. simpl.
  apply list_insert_insert_eq.
Qed.

Ltac in_positions :=
  apply elem_of_positions; simpl; unfold FIELD_SIZE in *; lia.

(** Two 9×9 grids with the same cells are the same grid. *)
Lemma grid_ext (f g : grid) :
  is_grid f → is_grid g → (∀ p, p ∈ positions → cell f p = cell g p) → f = g.
Proof.
  intros Hf Hg Hcells. apply list_eq. intros i.
  destruct (decide (i < FIELD_SIZE)) as [Hi|Hi].
  - destruct (is_grid_lookup f (i, 0)) as (rf & Hrf & Hlf & _);
      [done|in_positions|].
    destruct (is_grid_lookup g (i, 0)) as (rg & Hrg & Hlg & _);
      [done|in_positions|].
    simpl in *. rewrite Hrf, Hrg. f_equal. apply list_eq. intros j.
    destruct (decide (j < FIELD_SIZE)) as [Hj|Hj].
    + assert ((i, j) ∈ positions) as Hp by in_positions.
      destruct (is_grid_lookup f (i, j)) as (rf' & Hrf' & _ & Hcf); [done..|].
      destruct (is_grid_lookup g (i, j)) as (rg' & Hrg' & _ & Hcg); [done..|].
      simpl in *. assert (rf' = rf) as -> by congruence.
      assert (rg' = rg) as -> by congruence.
      by rewrite Hcf, Hcg, Hcells.
    + rewrite !lookup_ge_None_2; [done|lia..].
  - destruct Hf as [Hf _], Hg as [Hg _]. rewrite !lookup_ge_None_2; [done|lia..].
Qed.

(** *** Empty cells *)

Lemma is_complete_true (field : grid) :
  is_complete field = true ↔ ∀ p, p ∈ positions → cell field p ≠ 0%Z.
Proof. unfold is_complete. by rewrite bool_decide_eq_true, Forall_forall. Qed.

Lemma find_empty_position_Some (field : grid) (p : nat * nat) :
  find_empty_position field = Some p →
  cell field p = 0%Z
  ∧ ∃ i, positions !! i = Some p
         ∧ ∀ j q, positions !! j = Some q → j < i → cell field q ≠ 0%Z.
Proof.
  unfold find_empty_position. intros ([i q] & Hfind & ->)%fmap_Some.
  apply list_find_Some in Hfind as (Hi & Hq & Hfirst). eauto.
Qed.

Lemma find_empty_position_elem (field : grid) (p : nat * nat) :
  find_empty_position field = Some p → p ∈ positions ∧ cell field p = 0%Z.
Proof.
  intros (Hp & i & Hi & _)%find_empty_position_Some.
  split; [by eapply list_elem_of_lookup_2|done].
Qed.

Lemma find_empty_position_incomplete (field : grid) :
  is_complete field = false → is_Some (find_empty_position field).
Proof.
  intros Hinc. unfold find_empty_position.
  destruct (list_find _ positions) as [ip|] eqn:Hfind; [by eexists|].
  apply list_find_None in Hfind.
  apply (bool_decide_eq_false _) in Hinc. by destruct Hinc.
Qed.

Lemma filter_ext_in {A} (P Q : A → Prop)
    `{!∀ x, Decision (P x), !∀ x, Decision (Q x)} (l : list A) :
  (∀ q, q ∈ l → P q ↔ Q q) → filter P l = filter Q l.
Proof.
  induction l as [|a l IH]; intros Hext; [done|].
  rewrite !filter_cons. rewrite IH by (intros; apply Hext; by right).
  destruct (decide (P a)) as [HP|HP], (decide (Q a)) as [HQ|HQ]; try done;
    exfalso; apply (Hext a) in HP || apply (Hext a) in HQ; by try left.
Qed.

(** Counting the elements of a list that satisfy [P], when [Q] differs
    from [P] by rejecting the one element [p]. *)
Lemma length_filter_remove {A} (P Q : A → Prop)
    `{!∀ x, Decision (P x), !∀ x, Decision (Q x)} (l : list A) (p : A) :
  NoDup l → p ∈ l → P p → ¬ Q p → (∀ q, q ≠ p → P q ↔ Q q) →
  length (filter P l) = S (length (filter Q l)).
Proof.
  intros Hnd Hin HP HQ Hext.
  induction l as [|a l IH]; [by apply not_elem_of_nil in Hin|].
  apply NoDup_cons in Hnd as [Ha Hnd]. rewrite !filter_cons.
  apply elem_of_cons in Hin as [->|Hin].
  - rewrite decide_True, decide_False by done. simpl. do 2 f_equal.
    apply filter_ext_in. intros q Hq. apply Hext. by intros ->.
  - assert (a ≠ p) as Hne by by intros ->.
    specialize (IH Hnd Hin).
    destruct (decide (P a)) as [HPa|HPa], (decide (Q a)) as [HQa|HQa];
      simpl; try lia; exfalso.
    + by apply HQa, Hext.
    + by apply HPa, Hext.
Qed.

Lemma zeros_le (field : grid) : zeros field ≤ FIELD_SIZE * FIELD_SIZE.
Proof. unfold zeros. rewrite <- length_positions. apply length_filter. Qed.

(** Filling an empty cell with a nonzero value leaves one empty cell less. *)
Lemma zeros_set_cell (field : grid) (p : nat * nat) (value : Z) :
  is_grid field → p ∈ positions → cell field p = 0%Z → value ≠ 0%Z →
  S (zeros (set_cell field p value)) = zeros field.
Proof.
  intros Hgrid Hp Hzero Hvalue. unfold zeros. symmetry.
  apply (length_filter_remove _ _ _ p);
    [apply NoDup_positions|done|done|by rewrite cell_set_cell_eq|].
  intros q Hq. by rewrite cell_set_cell_ne.
Qed.

(** *** Candidate values *)

Lemma elem_of_set_erase (x y : Z) (s : list Z) :
  x ∈ set_erase y s ↔ x ∈ s ∧ x ≠ y.
Proof. unfold set_erase. rewrite list_elem_of_filter. tauto. Qed.

Lemma NoDup_set_erase (y : Z) (s : list Z) : NoDup s → NoDup (set_erase y s).
Proof. apply NoDup_filter. Qed.

Section erase_loop.
Context {A : Type} (field : grid).
Context (body : list Z → A → list Z) (seen : A → list (nat * nat)).
Hypothesis body_elem : ∀ s i x,
  x ∈ body s i ↔ x ∈ s ∧ Forall (λ q, cell field q ≠ x) (seen i).
Hypothesis body_NoDup : ∀ s i, NoDup s → NoDup (body s i).

(** A loop whose body erases the values of the cells [seen i]. *)
Lemma elem_of_erase_loop (l : list A) : ∀ s x,
  x ∈ foldl body s l
  ↔ x ∈ s ∧ Forall (λ q, cell field q ≠ x) (l ≫= seen).
Proof.
  induction l as [|i l IH]; intros s x; csimpl.
  - rewrite Forall_nil. tauto.
  - rewrite IH, body_elem, Forall_app. tauto.
Qed.

Lemma NoDup_erase_loop (l : list A) : ∀ s,
  NoDup s → NoDup (foldl body s l).
Proof. induction l as [|i l IH]; intros s Hs; simpl; auto. Qed.
End erase_loop.

Lemma initial_candidates :
  foldl (λ s i, set_insert (Z.of_nat i) s) [] (seq 1 FIELD_SIZE)
  = [1; 2; 3; 4; 5; 6; 7; 8; 9]%Z.
Proof. reflexivity. Qed.

Lemma elem_of_initial_candidates (x : Z) :
  x ∈ [1; 2; 3; 4; 5; 6; 7; 8; 9]%Z ↔ (1 ≤ x ≤ Z.of_nat FIELD_SIZE)%Z.
Proof.
  rewrite !elem_of_cons, elem_of_nil. unfold FIELD_SIZE. lia.
Qed.

(** The candidates are the values of 1..9 that no cell seen from the
    position holds. *)
Lemma elem_of_find_possible_values (field : grid) (p : nat * nat) (x : Z) :
  x ∈ find_possible_values field p
  ↔ (1 ≤ x ≤ Z.of_nat FIELD_SIZE)%Z
    ∧ Forall (λ q, cell field q ≠ x) (seen_from p).
Proof.
  unfold find_possible_values, seen_from. rewrite initial_candidates.
  rewrite (elem_of_erase_loop field _
             (λ i, j ← seq (p.2 - p.2 mod 3) 3; [(i, j)])).
  - rewrite (elem_of_erase_loop field _ (λ i, [(p.1, i); (i, p.2)])).
    + rewrite elem_of_initial_candidates, Forall_app. tauto.
    + intros s i y. rewrite !elem_of_set_erase, !Forall_cons, Forall_nil.
      intuition congruence.
  - intros s i y. rewrite (elem_of_erase_loop field _ (λ j, [(i, j)])); [done|].
    intros s' j z. rewrite elem_of_set_erase, Forall_singleton.
    intuition congruence.
Qed.

Lemma NoDup_find_possible_values (field : grid) (p : nat * nat) :
  NoDup (find_possible_values field p).
Proof.
  unfold find_possible_values. rewrite initial_candidates.
  apply NoDup_erase_loop.
  - intros s i Hs. apply NoDup_erase_loop; [|done].
    intros. by apply NoDup_set_erase.
  - apply NoDup_erase_loop.
    + intros. by do 2 apply NoDup_set_erase.
    + apply (bool_decide_unpack _). by vm_compute.
Qed.

(** *** The cells seen from a position *)

(** The units a position lies in, taken together. *)
Lemma elem_of_own_units (p q : nat * nat) :
  q ∈ mjoin (filter (λ u, p ∈ u) units) ↔ ∃ u, u ∈ units ∧ p ∈ u ∧ q ∈ u.
Proof.
  rewrite list_elem_of_join. split.
  - intros (u & Hq & [Hp Hu]%list_elem_of_filter). eauto.
  - intros (u & Hu & Hp & Hq). exists u. by rewrite list_elem_of_filter.
Qed.

(** Checked on the 81 positions: the cells seen from [p] lie on the grid
    and are those of the units [p] lies in. *)
Lemma seen_from_units_all :
  Forall (λ p,
      seen_from p ⊆ positions
      ∧ seen_from p ⊆ mjoin (filter (λ u, p ∈ u) units)
      ∧ mjoin (filter (λ u, p ∈ u) units) ⊆ seen_from p)
    positions.
Proof. apply (bool_decide_unpack _). by vm_compute. Qed.

Lemma units_all :
  Forall (λ u, NoDup u ∧ Forall (λ q, q ∈ positions) u) units.
Proof. apply (bool_decide_unpack _). by vm_compute. Qed.

Lemma seen_from_positions (p q : nat * nat) :
  p ∈ positions → q ∈ seen_from p → q ∈ positions.
Proof.
  intros Hp Hq. pose proof seen_from_units_all as Hall.
  rewrite Forall_forall in Hall. destruct (Hall p Hp) as [Hin _]. auto.
Qed.

Lemma seen_from_units (p q : nat * nat) :
  p ∈ positions →
  q ∈ seen_from p ↔ ∃ u, u ∈ units ∧ p ∈ u ∧ q ∈ u.
Proof.
  intros Hp. pose proof seen_from_units_all as Hall.
  rewrite Forall_forall in Hall. destruct (Hall p Hp) as (_ & Hsub & Hsup).
  rewrite <- elem_of_own_units. split; auto.
Qed.

Lemma seen_from_sym (p q : nat * nat) :
  p ∈ positions → q ∈ seen_from p → p ∈ seen_from q.
Proof.
  intros Hp Hq. assert (q ∈ positions) by by eapply seen_from_positions.
  apply seen_from_units; [done|].
  apply seen_from_units in Hq as (u & ? & ? & ?); eauto.
Qed.

(** *** Filling one cell *)

Lemma seen_distinct_iff (g : grid) (p : nat * nat) :
  Forall (λ q, q = p ∨ cell g q ≠ cell g p) (seen_from p)
  ↔ ∀ q, q ∈ seen_from p → q ≠ p → cell g q ≠ cell g p.
Proof.
  rewrite Forall_forall. split.
  - intros Hall q Hq Hne. by destruct (Hall q Hq).
  - intros Hall q Hq. destruct (decide (q = p)); [by left|right; by apply Hall].
Qed.

Lemma fills_lookup (field g : grid) (p : nat * nat) :
  fills field g → p ∈ positions →
  (cell field p ≠ 0%Z → cell g p = cell field p)
  ∧ (cell field p = 0%Z →
     (1 ≤ cell g p ≤ Z.of_nat FIELD_SIZE)%Z
     ∧ ∀ q, q ∈ seen_from p → q ≠ p → cell g q ≠ cell g p).
Proof.
  intros [_ Hall] Hp. rewrite Forall_forall in Hall.
  destruct (Hall p Hp) as [Hkeep Hfill]. split; [done|].
  intros Hzero. destruct (Hfill Hzero) as [Hrange Hseen]. split; [done|].
  by apply seen_distinct_iff.
Qed.

(** A completion of [field] holds a candidate at the empty position [p]
    and completes the grid that has this candidate written at [p]. *)
Lemma fills_split (field g : grid) (p : nat * nat) :
  is_grid field → p ∈ positions → cell field p = 0%Z → fills field g →
  cell g p ∈ find_possible_values field p
  ∧ fills (set_cell field p (cell g p)) g.
Proof.
  intros Hgrid Hp Hzero Hfills.
  destruct (fills_lookup field g p Hfills Hp) as [_ Hfill].
  destruct (Hfill Hzero) as [Hrange Hseen]. split.
  - apply elem_of_find_possible_values. split; [done|].
    apply Forall_forall. intros q Hq.
    destruct (decide (q = p)) as [->|Hne]; [lia|].
    assert (q ∈ positions) as Hqp by by eapply seen_from_positions.
    destruct (fills_lookup field g q Hfills Hqp) as [Hkeep _].
    destruct (decide (cell field q = 0%Z)) as [->|Hq0]; [lia|].
    rewrite <- (Hkeep Hq0). by apply Hseen.
  - split; [apply Hfills|]. apply Forall_forall. intros q Hqp.
    destruct (decide (q = p)) as [->|Hne].
    + rewrite cell_set_cell_eq by done. split; [done|lia].
    + rewrite cell_set_cell_ne by done.
      destruct (fills_lookup field g q Hfills Hqp) as [Hkeep Hfill'].
      split; [done|]. intros Hq0. destruct (Hfill' Hq0) as [? Hseen'].
      split; [done|]. by apply seen_distinct_iff.
Qed.

(** Conversely, a completion of the grid with a candidate written at the
    empty position [p] completes [field] and holds that candidate. *)
Lemma fills_fill (field g : grid) (p : nat * nat) (value : Z) :
  is_grid field → p ∈ positions → cell field p = 0%Z →
  value ∈ find_possible_values field p →
  fills (set_cell field p value) g →
  cell g p = value ∧ fills field g.
Proof.
  intros Hgrid Hp Hzero [Hrange Hcand]%elem_of_find_possible_values Hfills.
  rewrite Forall_forall in Hcand.
  assert (cell g p = value) as Hgp.
  { destruct (fills_lookup _ g p Hfills Hp) as [Hkeep _].
    rewrite cell_set_cell_eq in Hkeep by done. apply Hkeep. lia. }
  split; [done|]. split; [apply Hfills|]. apply Forall_forall. intros q Hqp.
  destruct (fills_lookup _ g q Hfills Hqp) as [Hkeep Hfill].
  destruct (decide (q = p)) as [->|Hne].
  - split; [done|]. intros _. split; [by rewrite Hgp|].
    apply seen_distinct_iff. intros q Hq Hne. rewrite Hgp.
    assert (q ∈ positions) as Hqp' by by eapply seen_from_positions.
    destruct (fills_lookup _ g q Hfills Hqp') as [Hkeep' Hfill'].
    rewrite cell_set_cell_ne in Hkeep', Hfill' by done.
    destruct (decide (cell field q = 0%Z)) as [Hq0|Hq0].
    + destruct (Hfill' Hq0) as [_ Hseen']. rewrite <- Hgp. intros Heq.
      apply (Hseen' p); [by apply seen_from_sym|done|done].
    + rewrite (Hkeep' Hq0). by apply Hcand.
  - rewrite cell_set_cell_ne in Hkeep, Hfill by done.
    split; [done|]. intros Hq0. destruct (Hfill Hq0) as [? Hseen].
    split; [done|]. by apply seen_distinct_iff.
Qed.

(** A complete grid is its own and only completion. *)
Lemma fills_complete (field g : grid) :
  is_grid field → is_complete field = true → fills field g ↔ g = field.
Proof.
  intros Hgrid Hfull. rewrite is_complete_true in Hfull. split.
  - intros Hfills. apply grid_ext; [apply Hfills|done|].
    intros p Hp. destruct (fills_lookup field g p Hfills Hp) as [Hkeep _].
    by apply Hkeep, Hfull.
  - intros ->. split; [done|]. apply Forall_forall. intros p Hp.
    split; [done|]. intros Hzero. by destruct (Hfull p Hp).
Qed.

(** *** The search *)

Lemma completions_S (fuel : nat) (field : grid) :
  completions (S fuel) field =
    if is_complete field then [field]
    else match find_empty_position field with
         | None => []
         | Some empty_pos =>
             value ← find_possible_values field empty_pos;
             completions fuel (set_cell field empty_pos value)
         end.
Proof. reflexivity. Qed.

Lemma solve_recursively_S (fuel : nat) (field : grid) :
  solve_recursively (S fuel) field =
    if is_complete field then Some 1%Z
    else
      empty_pos ← find_empty_position field;
      snd <$>
        foldl (λ st value,
                 '(field, sum) ← st;
                 let field := set_cell field empty_pos value in
                 r ← solve_recursively fuel field;
                 Some (field, ((sum + r) mod Vector.SIZE_MOD)%Z))
              (Some (field, 0%Z)) (find_possible_values field empty_pos).
Proof. reflexivity. Qed.

Lemma find_possible_values_nonzero (field : grid) (p : nat * nat) (value : Z) :
  value ∈ find_possible_values field p → value ≠ 0%Z.
Proof. intros [? _]%elem_of_find_possible_values. lia. Qed.

Lemma zeros_candidate (field : grid) (p : nat * nat) (value : Z) (fuel : nat) :
  is_grid field → find_empty_position field = Some p →
  value ∈ find_possible_values field p → zeros field < S fuel →
  zeros (set_cell field p value) < fuel.
Proof.
  intros Hgrid [Hp Hzero]%find_empty_position_elem Hvalue Hfuel.
  apply find_possible_values_nonzero in Hvalue.
  pose proof (zeros_set_cell field p value Hgrid Hp Hzero Hvalue). lia.
Qed.

(** The grids the search reaches are the completions of the field. *)
Lemma completions_fills (fuel : nat) : ∀ field g,
  is_grid field → zeros field < fuel →
  g ∈ completions fuel field ↔ fills field g.
Proof.
  induction fuel as [|fuel IH]; intros field g Hgrid Hfuel; [lia|].
  rewrite completions_S. destruct (is_complete field) eqn:Hfull.
  - by rewrite list_elem_of_singleton, fills_complete.
  - destruct (find_empty_position_incomplete field Hfull) as [p Hfind].
    rewrite Hfind. pose proof Hfind as [Hp Hzero]%find_empty_position_elem.
    rewrite list_elem_of_bind. split.
    + intros (value & Hg & Hvalue).
      apply IH in Hg;
        [|by apply is_grid_set_cell|by eapply zeros_candidate].
      by destruct (fills_fill field g p value).
    + intros Hfills.
      destruct (fills_split field g p) as [Hvalue Hfills']; [done..|].
      exists (cell g p). split; [|done].
      apply IH; [by apply is_grid_set_cell|by eapply zeros_candidate|done].
Qed.

(** No grid is reached twice. *)
Lemma NoDup_completions (fuel : nat) : ∀ field,
  is_grid field → zeros field < fuel → NoDup (completions fuel field).
Proof.
  induction fuel as [|fuel IH]; intros field Hgrid Hfuel; [lia|].
  rewrite completions_S.
  destruct (is_complete field) eqn:Hfull; [apply NoDup_singleton|].
  destruct (find_empty_position_incomplete field Hfull) as [p Hfind].
  rewrite Hfind. pose proof Hfind as [Hp Hzero]%find_empty_position_elem.
  apply NoDup_bind; [| |apply NoDup_find_possible_values].
  - intros v w g Hv Hw Hgv Hgw.
    apply completions_fills in Hgv;
      [|by apply is_grid_set_cell|by eapply zeros_candidate].
    apply completions_fills in Hgw;
      [|by apply is_grid_set_cell|by eapply zeros_candidate].
    destruct (fills_fill field g p v) as [<- _]; [done..|].
    by destruct (fills_fill field g p w) as [<- _].
  - intros v Hv. apply IH; [by apply is_grid_set_cell|by eapply zeros_candidate].
Qed.

Lemma add_mod_step (s c r M : Z) :
  (((s + c mod M) mod M + r) mod M = (s + (c + r)) mod M)%Z.
Proof.
  rewrite Zplus_mod_idemp_l, (Z.add_comm s), <- Z.add_assoc.
  rewrite Zplus_mod_idemp_l. f_equal. lia.
Qed.

(** The loop of [solve_recursively], for any function in the place of the
    recursive call: [sum] grows by what each call returns, modulo 2^64. *)
Lemma solve_loop (rec : grid → option Z) (field0 : grid) (p : nat * nat)
    (count : Z → nat) (vals : list Z) : ∀ (field : grid) (sum : Z),
  (∀ v, set_cell field p v = set_cell field0 p v) →
  (0 ≤ sum < Vector.SIZE_MOD)%Z →
  (∀ v, v ∈ vals →
        rec (set_cell field0 p v) = Some (Z.of_nat (count v) mod Vector.SIZE_MOD)%Z) →
  snd <$>
    foldl (λ st value,
             '(field, sum) ← st;
             let field := set_cell field p value in
             r ← rec field;
             Some (field, ((sum + r) mod Vector.SIZE_MOD)%Z))
          (Some (field, sum)) vals
  = Some ((sum + Z.of_nat (length (vals ≫= λ v, replicate (count v) ())))
            mod Vector.SIZE_MOD)%Z.
Proof.
  induction vals as [|v vals IH]; intros field sum Hfield Hsum Hrec; csimpl.
  - rewrite Z.add_0_r, Z.mod_small by done. done.
  - rewrite Hfield, (Hrec v) by left. csimpl.
    rewrite IH.
    + rewrite length_app, length_replicate, Nat2Z.inj_add.
      by rewrite add_mod_step.
    + intros w. apply set_cell_set_cell.
    + apply Z.mod_pos_bound. done.
    + intros w Hw. apply Hrec. by right.
Qed.

Lemma length_bind_replicate {A B} (f : A → list B) (l : list A) :
  length (l ≫= λ v, replicate (length (f v)) ()) = length (l ≫= f).
Proof.
  induction l as [|a l IH]; csimpl; [done|].
  by rewrite !length_app, length_replicate, IH.
Qed.

(** With fuel for its depth, [solve_recursively] returns the number of
    grids the search reaches, modulo 2^64. *)
Lemma solve_recursively_count (fuel : nat) : ∀ field,
  is_grid field → zeros field < fuel →
  solve_recursively fuel field
  = Some (Z.of_nat (length (completions fuel field)) mod Vector.SIZE_MOD)%Z.
Proof.
  induction fuel as [|fuel IH]; intros field Hgrid Hfuel; [lia|].
  rewrite solve_recursively_S, completions_S.
  destruct (is_complete field) eqn:Hfull; [done|].
  destruct (find_empty_position_incomplete field Hfull) as [p Hfind].
  rewrite Hfind. cbn [mbind option_bind].
  rewrite (solve_loop _ field p
             (λ v, length (completions fuel (set_cell field p v)))).
  - by rewrite length_bind_replicate.
  - done.
  - done.
  - intros v Hv.
    apply IH; [by apply is_grid_set_cell|by eapply zeros_candidate].
Qed.

(** *** Completions and valid solutions *)

Lemma NoDup_fmap_pairwise {A B} (f : A → B) (l : list A) (p q : A) :
  NoDup (f <$> l) → p ∈ l → q ∈ l → p ≠ q → f p ≠ f q.
Proof.
  intros Hnd [i Hi]%list_elem_of_lookup [j Hj]%list_elem_of_lookup Hne Heq.
  assert (i = j) as ->; [|congruence].
  apply (NoDup_lookup (f <$> l) i j (f p) Hnd).
  - by rewrite list_lookup_fmap, Hi.
  - by rewrite list_lookup_fmap, Hj, Heq.
Qed.

Lemma NoDup_filter_fmap_pairwise {A B} (f : A → B) (P : B → Prop)
    `{!∀ y, Decision (P y)} (l : list A) (p q : A) :
  NoDup (filter P (f <$> l)) → p ∈ l → q ∈ l → p ≠ q → P (f p) → f p ≠ f q.
Proof.
  intros Hnd Hp Hq Hne HP Heq.
  induction l as [|a l IH]; [by apply elem_of_nil in Hp|].
  rewrite fmap_cons, filter_cons in Hnd.
  apply elem_of_cons in Hp as [->|Hp], Hq as [->|Hq]; [done| | |].
  - rewrite decide_True in Hnd by done. apply NoDup_cons in Hnd as [Hnin _].
    apply Hnin, list_elem_of_filter. rewrite Heq. split; [congruence|].
    by apply list_elem_of_fmap_2.
  - rewrite decide_True in Hnd by congruence.
    apply NoDup_cons in Hnd as [Hnin _].
    apply Hnin, list_elem_of_filter. rewrite <- Heq. split; [done|].
    by apply list_elem_of_fmap_2.
  - apply IH; [|done..]. destruct (decide (P (f a))); [|done].
    by apply NoDup_cons in Hnd as [_ ?].
Qed.

Lemma units_lookup (u : list (nat * nat)) (p : nat * nat) :
  u ∈ units → p ∈ u → NoDup u ∧ p ∈ positions.
Proof.
  intros Hu Hp. pose proof units_all as Hall. rewrite Forall_forall in Hall.
  destruct (Hall u Hu) as [Hnd Hpos]. rewrite Forall_forall in Hpos. auto.
Qed.

(** A valid completion fills the empty cells the way the search does. *)
Lemma valid_completion_fills (field g : grid) :
  valid_completion field g → fills field g.
Proof.
  intros (Hgrid & Hkeep & Hrange & Hnodup). split; [done|].
  unfold preserved, in_range, no_duplicates in *.
  rewrite Forall_forall in Hkeep, Hrange. rewrite Forall_forall in Hnodup.
  apply Forall_forall. intros p Hp.
  split; [by apply Hkeep|]. intros _. split; [by apply Hrange|].
  apply seen_distinct_iff. intros q Hq Hne.
  assert (q ∈ positions) as Hqp by by eapply seen_from_positions.
  apply seen_from_units in Hq as (u & Hu & Hpu & Hqu); [|done].
  by apply (NoDup_fmap_pairwise _ u); [apply Hnodup|..].
Qed.

(** On a consistent field the converse holds as well. *)
Lemma fills_valid_completion (field g : grid) :
  consistent field → fills field g → valid_completion field g.
Proof.
  intros [Hvalues Hunits] Hfills.
  rewrite Forall_forall in Hvalues. rewrite Forall_forall in Hunits.
  split; [apply Hfills|]. split_and!; apply Forall_forall.
  - intros p Hp. by destruct (fills_lookup field g p Hfills Hp).
  - intros p Hp. destruct (fills_lookup field g p Hfills Hp) as [Hkeep Hfill].
    destruct (decide (cell field p = 0%Z)) as [Hp0|Hp0].
    + by destruct (Hfill Hp0).
    + rewrite (Hkeep Hp0). specialize (Hvalues p Hp). lia.
  - intros u Hu. pose proof units_all as Hall.
    rewrite Forall_forall in Hall. destruct (Hall u Hu) as [Hnd _].
    apply NoDup_fmap_2_strong; [|done].
    intros p q Hpu Hqu Heq. destruct (decide (p = q)) as [|Hne]; [done|].
    exfalso.
    destruct (units_lookup u p Hu Hpu) as [_ Hp].
    destruct (units_lookup u q Hu Hqu) as [_ Hq].
    destruct (fills_lookup field g p Hfills Hp) as [Hkeep_p Hfill_p].
    destruct (fills_lookup field g q Hfills Hq) as [Hkeep_q Hfill_q].
    assert (q ∈ seen_from p) as Hqp by (apply seen_from_units; eauto).
    assert (p ∈ seen_from q) as Hpq by (apply seen_from_units; eauto).
    destruct (decide (cell field p = 0%Z)) as [Hp0|Hp0].
    { destruct (Hfill_p Hp0) as [_ Hseen]. by apply (Hseen q). }
    destruct (decide (cell field q = 0%Z)) as [Hq0|Hq0].
    { destruct (Hfill_q Hq0) as [_ Hseen]. by apply (Hseen p). }
    rewrite (Hkeep_p Hp0), (Hkeep_q Hq0) in Heq.
    by apply (NoDup_filter_fmap_pairwise (cell field) _ u p q (Hunits u Hu)).
Qed.

(** *** What [is_unique] decides *)

Lemma length_unique_le (element : list Z) :
  length (unique element) ≤ length element.
Proof.
  induction element as [|x rest IH]; [done|].
  destruct rest as [|y rest']; [done|].
  change (unique (x :: y :: rest'))
    with (if (x =? y)%Z then unique (y :: rest') else x :: unique (y :: rest')).
  destruct (x =? y)%Z; simpl in *; lia.
Qed.

(** [is_unique] holds exactly when no two neighbours are equal; equal
    values further apart go unnoticed. *)
Lemma is_unique_neighbours (element : list Z) :
  is_unique element = true
  ↔ ∀ i x y, element !! i = Some x → element !! S i = Some y → x ≠ y.
Proof.
  unfold is_unique. rewrite bool_decide_eq_true.
  induction element as [|x rest IH]; [done|].
  destruct rest as [|y rest']; [split; [by intros _ [|i]|done]|].
  change (unique (x :: y :: rest'))
    with (if (x =? y)%Z then unique (y :: rest') else x :: unique (y :: rest')).
  pose proof (length_unique_le (y :: rest')) as Hle.
  destruct (Z.eqb_spec x y) as [->|Hne].
  - split; [simpl in *; lia|]. intros Hall. by destruct (Hall 0 y y).
  - rewrite length_cons, (length_cons x). split.
    + intros Hlen [|i] a b Ha Hb.
      * simpl in *. congruence.
      * apply (proj1 IH) with i; [by injection Hlen|done..].
    + intros Hall. f_equal. apply IH. intros i a b. apply (Hall (S i)).
Qed.

(** *** The claims about the field checker and the solver *)

Lemma is_grid_chessboard : is_grid chessboard.
Proof. apply (bool_decide_unpack _). by vm_compute. Qed.

(** C8 (code evaluated at the failing inputs). [is_unique] compares
    neighbours only, and the block loop stops before the rightmost column
    of blocks.  So [check_field] returns true on the chessboard of 1s and
    2s, every unit of which repeats a value, and on the chessboard with
    two 3s next to each other in the upper right block, which even
    [is_unique] rejects. *)
Theorem check_field_accepts_duplicates :
  is_unique [1; 2; 1]%Z = true
  ∧ block_corner_cols = [0; 3]
  ∧ check_field zero_grid chessboard = true
  ∧ ¬ valid_solution zero_grid chessboard
  ∧ check_field zero_grid chessboard_33 = true
  ∧ is_unique (i ← seq 0 3; j ← seq 0 3; [cell chessboard_33 (0 + i, 6 + j)])
    = false.
Proof.
  split_and!; try by vm_compute.
  intros (_ & _ & Hnodup). unfold no_duplicates in Hnodup.
  apply (bool_decide_pack _) in Hnodup. by vm_compute in Hnodup.
Qed.

(** C9, refuted as stated. The grid of 81 ones is full and has no valid
    completion, yet [sudoku_solve] returns the count 1 for it. *)
Lemma sudoku_solve_counts_full_invalid_grid :
  is_grid ones_grid
  ∧ ¬ ∃ n solution,
        sudoku_solve ones_grid = Some (n, solution)
        ∧ counts_completions ones_grid n.
Proof.
  split; [apply (bool_decide_unpack _); by vm_compute|].
  intros (n & solution & Hsolve & l & _ & Hl & Hn).
  assert (sudoku_solve ones_grid = Some (1%Z, ones_grid)) as Hone
    by by vm_compute.
  rewrite Hone in Hsolve. injection Hsolve as <- _.
  destruct l as [|g l]; [done|].
  destruct (proj1 (Hl g)) as (_ & Hkeep & _ & Hnodup); [by left|].
  unfold preserved in Hkeep. rewrite Forall_forall in Hkeep.
  unfold no_duplicates in Hnodup. rewrite Forall_forall in Hnodup.
  assert (row_unit 0 ∈ units) as Hu
    by (apply (bool_decide_unpack _); by vm_compute).
  apply (NoDup_fmap_pairwise (cell g) (row_unit 0) (0, 0) (0, 1));
    [by apply Hnodup|apply (bool_decide_unpack _); by vm_compute..|done|].
  rewrite !Hkeep; [done|in_positions|done|in_positions|done].
Qed.

(** C9, amended. For every 9×9 grid whose prefilled values are consistent,
    [sudoku_solve] returns as its count the number of valid completions of
    the grid, reduced modulo 2^64 as [size_t] arithmetic does. *)
Theorem sudoku_solve_counts (field : grid) :
  is_grid field → consistent field →
  ∃ n solution k,
    sudoku_solve field = Some (n, solution)
    ∧ counts_completions field k
    ∧ n = (k mod Vector.SIZE_MOD)%Z.
Proof.
  intros Hgrid Hcons.
  assert (zeros field < DEPTH) as Hfuel
    by (pose proof (zeros_le field); unfold DEPTH; lia).
  set (l := completions DEPTH field).
  assert (∃ solution,
    sudoku_solve field
    = Some ((Z.of_nat (length l) mod Vector.SIZE_MOD)%Z, solution))
    as [solution Hsolve].
  { unfold sudoku_solve, l. destruct (is_complete field) eqn:Hfull.
    - exists field. unfold DEPTH. by rewrite completions_S, Hfull.
    - exists []. by rewrite solve_recursively_count. }
  exists (Z.of_nat (length l) mod Vector.SIZE_MOD)%Z, solution,
         (Z.of_nat (length l)).
  split_and!; [done| |done].
  exists l. split_and!; [by apply NoDup_completions| |done].
  intros g. unfold l. rewrite completions_fills by done. split.
  - by apply fills_valid_completion.
  - apply valid_completion_fills.
Qed.

Lemma sudoku_solve_counts_witness :
  ∃ n solution k,
    sudoku_solve puzzle = Some (n, solution)
    ∧ counts_completions puzzle k
    ∧ n = (k mod Vector.SIZE_MOD)%Z.
Proof.
  apply (sudoku_solve_counts puzzle);
    apply (bool_decide_unpack _); by vm_compute.
Defined.

(** C10. On every 9×9 grid [solve_recursively] terminates: the grid has
    at most 81 empty cells; on an incomplete grid the first empty position
    is found, every candidate is a value of 1..9, and writing it there
    leaves exactly one empty cell less in the grid handed to the nested
    call; so a depth of one more than the number of empty cells is enough
    for the call to return. *)
Theorem solve_recursively_terminates (field : grid) :
  is_grid field →
  zeros field ≤ FIELD_SIZE * FIELD_SIZE
  ∧ (is_complete field = false →
     ∃ p, find_empty_position field = Some p
          ∧ cell field p = 0%Z
          ∧ ∀ value, value ∈ find_possible_values field p →
              (1 ≤ value ≤ Z.of_nat FIELD_SIZE)%Z
              ∧ is_grid (set_cell field p value)
              ∧ cell (set_cell field p value) p = value
              ∧ S (zeros (set_cell field p value)) = zeros field)
  ∧ (∀ fuel, zeros field < fuel → is_Some (solve_recursively fuel field))
  ∧ is_Some (solve_recursively DEPTH field)
  ∧ is_Some (sudoku_solve field).
Proof.
  intros Hgrid. pose proof (zeros_le field) as Hle.
  assert (∀ fuel, zeros field < fuel → is_Some (solve_recursively fuel field))
    as Hterm by (intros fuel Hfuel; by rewrite solve_recursively_count).
  assert (is_Some (solve_recursively DEPTH field)) as Hdepth
    by (apply Hterm; unfold DEPTH; lia).
  split_and!; [done| |done|done|].
  - intros Hinc.
    destruct (find_empty_position_incomplete field Hinc) as [p Hfind].
    pose proof Hfind as [Hp Hzero]%find_empty_position_elem.
    exists p. split_and!; [done..|]. intros value Hvalue.
    pose proof Hvalue as [Hrange _]%elem_of_find_possible_values.
    split; [done|]. split; [by apply is_grid_set_cell|].
    split; [by apply cell_set_cell_eq|].
    apply zeros_set_cell; [done..|lia].
  - unfold sudoku_solve. destruct (is_complete field); [done|].
    destruct Hdepth as [n ->]. done.
Qed.

Lemma solve_recursively_terminates_witness :
  is_Some (solve_recursively DEPTH puzzle)
  ∧ solve_recursively (S (zeros puzzle)) puzzle = Some 1%Z.
Proof.
  split.
  - apply (solve_recursively_terminates puzzle).
    apply (bool_decide_unpack _). by vm_compute.
  - by vm_compute.
Defined.

(** *** Further facts about the solver *)

Lemma positions_index_all :
  Forall (λ p, positions !! (FIELD_SIZE * p.1 + p.2) = Some p) positions.
Proof. apply (bool_decide_unpack _). by vm_compute. Qed.

(** X7. On a 9×9 grid [find_empty_position] finds nothing exactly when
    [is_complete] accepts the grid; what it finds is an empty cell of the
    grid with no empty cell before it in row-major order. *)
Theorem find_empty_position_first_zero (field : grid) :
  is_grid field →
  (find_empty_position field = None ↔ is_complete field = true)
  ∧ ∀ p, find_empty_position field = Some p →
      p ∈ positions ∧ cell field p = 0%Z
      ∧ ∀ q, q ∈ positions → q.1 < p.1 ∨ q.1 = p.1 ∧ q.2 < p.2 →
          cell field q ≠ 0%Z.
Proof.
  intros _. split.
  - unfold find_empty_position, is_complete.
    by rewrite fmap_None, list_find_None, bool_decide_eq_true.
  - intros p Hfind. pose proof Hfind as [Hp _]%find_empty_position_elem.
    apply find_empty_position_Some in Hfind as (Hzero & i & Hi & Hfirst).
    split_and!; [done..|]. intros q Hq Hbefore.
    pose proof positions_index_all as Hindex. rewrite Forall_forall in Hindex.
    apply (Hfirst _ q (Hindex q Hq)).
    assert (i = FIELD_SIZE * p.1 + p.2) as ->
      by (apply (NoDup_lookup positions _ _ p NoDup_positions Hi); auto).
    apply elem_of_positions in Hq. unfold FIELD_SIZE in *. lia.
Qed.

Lemma find_empty_position_first_zero_witness :
  (find_empty_position puzzle = None ↔ is_complete puzzle = true)
  ∧ ∀ p, find_empty_position puzzle = Some p →
      p ∈ positions ∧ cell puzzle p = 0%Z
      ∧ ∀ q, q ∈ positions → q.1 < p.1 ∨ q.1 = p.1 ∧ q.2 < p.2 →
          cell puzzle q ≠ 0%Z.
Proof.
  apply (find_empty_position_first_zero puzzle).
  apply (bool_decide_unpack _). by vm_compute.
Defined.

Lemma foldl_sublist {A} (body : list Z → A → list Z) (l : list A) :
  (∀ s i, body s i `sublist_of` s) → ∀ s, foldl body s l `sublist_of` s.
Proof.
  intros Hbody. induction l as [|i l IH]; intros s; simpl; [done|].
  etrans; [apply IH|apply Hbody].
Qed.

(** X8. On a 9×9 grid the candidates for a position of the grid are the
    values of 1..9 that occur neither in its row, nor in its column, nor
    in its 3×3 block; they come as a subsequence of 1, 2, ..., 9, that is
    in ascending order and without repetition. *)
Theorem find_possible_values_spec (field : grid) (row col : nat) :
  is_grid field → row < 9 → col < 9 →
  (∀ value,
      value ∈ find_possible_values field (row, col)
      ↔ (1 ≤ value ≤ 9)%Z
        ∧ (∀ i, i < 9 →
             cell field (row, i) ≠ value ∧ cell field (i, col) ≠ value)
        ∧ (∀ i j, i < 3 → j < 3 →
             cell field (row - row mod 3 + i, col - col mod 3 + j) ≠ value))
  ∧ find_possible_values field (row, col)
      `sublist_of` [1; 2; 3; 4; 5; 6; 7; 8; 9]%Z.
Proof.
  intros _ _ _. split.
  - intros value. rewrite elem_of_find_possible_values. unfold seen_from.
    rewrite Forall_app, !Forall_bind, !Forall_seq. unfold compose.
    cbn [fst snd].
    split; intros (Hrange & Hline & Hblock); (split; [done|]); split.
    + intros i Hi. specialize (Hline i).
      rewrite !Forall_cons in Hline. unfold FIELD_SIZE in *.
      destruct Hline as (? & ? & _); [lia|done].
    + intros i j Hi Hj. specialize (Hblock (row - row mod 3 + i)).
      rewrite Forall_bind, Forall_seq in Hblock. unfold compose in Hblock.
      specialize (Hblock ltac:(lia) (col - col mod 3 + j) ltac:(lia)).
      exact (proj1 (Forall_singleton _ _) Hblock).
    + intros i Hi. rewrite !Forall_cons. unfold FIELD_SIZE in *.
      destruct (Hline i) as [? ?]; [lia|done].
    + intros i Hi. rewrite Forall_bind, Forall_seq. intros j Hj.
      unfold compose. apply (proj2 (Forall_singleton _ _)).
      replace i with (row - row mod 3 + (i - (row - row mod 3))) by lia.
      replace j with (col - col mod 3 + (j - (col - col mod 3))) by lia.
      apply Hblock; lia.
  - unfold find_possible_values. rewrite initial_candidates.
    etrans; [apply foldl_sublist|apply foldl_sublist].
    + intros s i. apply foldl_sublist. intros. apply sublist_filter.
    + intros s i. etrans; apply sublist_filter.
Qed.

Lemma find_possible_values_spec_witness :
  (∀ value,
      value ∈ find_possible_values puzzle (0, 2)
      ↔ (1 ≤ value ≤ 9)%Z
        ∧ (∀ i, i < 9 →
             cell puzzle (0, i) ≠ value ∧ cell puzzle (i, 2) ≠ value)
        ∧ (∀ i j, i < 3 → j < 3 →
             cell puzzle (0 - 0 mod 3 + i, 2 - 2 mod 3 + j) ≠ value))
  ∧ find_possible_values puzzle (0, 2)
      `sublist_of` [1; 2; 3; 4; 5; 6; 7; 8; 9]%Z.
Proof.
  apply (find_possible_values_spec puzzle 0 2);
    [apply (bool_decide_unpack _); by vm_compute|lia|lia].
Defined.

(** *** [std::unique] without a sort *)

Lemma NoDup_is_unique (element : list Z) :
  NoDup element → is_unique element = true.
Proof.
  intros Hnd. apply is_unique_neighbours. intros i x y Hx Hy ->.
  pose proof (NoDup_lookup _ _ _ _ Hnd Hx Hy). lia.
Qed.

(** X9. [is_unique] returns true exactly when no two neighbours of the
    sequence are equal.  It accepts every sequence without repetition;
    that it accepts a sequence shows the absence of repetitions only if
    the sequence is sorted. *)
Theorem is_unique_spec (element : list Z) :
  (is_unique element = true
   ↔ ∀ i x y, element !! i = Some x → element !! S i = Some y → x ≠ y)
  ∧ (NoDup element → is_unique element = true)
  ∧ (StronglySorted Z.le element → is_unique element = true → NoDup element).
Proof.
  split; [apply is_unique_neighbours|]. split; [apply NoDup_is_unique|].
  rewrite is_unique_neighbours.
  induction 1 as [|x l Hsorted IH Hall]; intros Hneigh; [constructor|].
  apply NoDup_cons. split.
  - destruct Hsorted as [|y l' Hsorted' Hall']; [apply not_elem_of_nil|].
    assert (x ≠ y) as Hxy by by apply (Hneigh 0).
    apply Forall_cons in Hall as [Hle _]. rewrite Forall_forall in Hall'.
    intros [->|Hin]%elem_of_cons; [done|].
    specialize (Hall' x Hin). lia.
  - apply IH. intros i a b. apply (Hneigh (S i)).
Qed.

(** *** What the search counts on any grid *)

Lemma fills_complete_grid (field g : grid) :
  fills field g → is_grid g ∧ is_complete g = true ∧ preserved field g.
Proof.
  intros Hfills. split; [apply Hfills|]. split.
  - apply is_complete_true. intros p Hp.
    destruct (fills_lookup field g p Hfills Hp) as [Hkeep Hfill].
    destruct (decide (cell field p = 0%Z)) as [Hp0|Hp0].
    + destruct (Hfill Hp0) as [? _]. lia.
    + by rewrite (Hkeep Hp0).
  - apply Forall_forall. intros p Hp.
    by destruct (fills_lookup field g p Hfills Hp).
Qed.

(** X10. On every 9×9 grid, consistent or not, [solve_recursively]
    returns, modulo 2^64, the number of 9×9 grids that keep every
    prefilled cell and hold in every cell that was empty a value of 1..9
    that no other cell of its row, column and block holds.  Each of them
    is complete, and every valid completion of the grid is among them. *)
Theorem solve_recursively_counts_fills (field : grid) :
  is_grid field →
  ∃ l : list grid,
    NoDup l
    ∧ (∀ g, g ∈ l ↔ fills field g)
    ∧ solve_recursively DEPTH field
      = Some (Z.of_nat (length l) mod Vector.SIZE_MOD)%Z
    ∧ (∀ g, g ∈ l → is_grid g ∧ is_complete g = true ∧ preserved field g)
    ∧ (∀ g, valid_completion field g → g ∈ l).
Proof.
  intros Hgrid.
  assert (zeros field < DEPTH) as Hfuel
    by (pose proof (zeros_le field); unfold DEPTH; lia).
  exists (completions DEPTH field).
  split; [by apply NoDup_completions|].
  split; [intros g; by apply completions_fills|].
  split; [by apply solve_recursively_count|]. split.
  - intros g Hg%completions_fills; [|done..]. by apply fills_complete_grid.
  - intros g Hg%valid_completion_fills. by apply completions_fills.
Qed.

Lemma solve_recursively_counts_fills_witness :
  ∃ l : list grid,
    NoDup l
    ∧ (∀ g, g ∈ l ↔ fills puzzle g)
    ∧ solve_recursively DEPTH puzzle
      = Some (Z.of_nat (length l) mod Vector.SIZE_MOD)%Z
    ∧ (∀ g, g ∈ l → is_grid g ∧ is_complete g = true ∧ preserved puzzle g)
    ∧ (∀ g, valid_completion puzzle g → g ∈ l).
Proof.
  apply (solve_recursively_counts_fills puzzle).
  apply (bool_decide_unpack _). by vm_compute.
Defined.

(** *** What [check_field] accepts *)

(** The four loops of [check_field], each as one test. *)
Lemma check_field_phases (init_field solution : grid) :
  check_field init_field solution =
    forallb (λ p,
        negb ((cell solution p <=? 0)%Z
              || (cell solution p >? Z.of_nat FIELD_SIZE)%Z)
        && negb (negb (cell init_field p =? 0)%Z
                 && negb (cell solution p =? cell init_field p)%Z))
      positions
    && forallb (λ row, is_unique (default [] (solution !! row)))
         (seq 0 FIELD_SIZE)
    && forallb (λ col,
           is_unique ((λ row, cell solution (row, col)) <$> seq 0 FIELD_SIZE))
         (seq 0 FIELD_SIZE)
    && forallb (λ row, forallb (λ col,
           is_unique (i ← seq 0 3; j ← seq 0 3;
                      [cell solution (row + i, col + j)]))
         block_corner_cols) block_corner_rows.
Proof.
  unfold check_field.
  repeat match goal with
         | |- context [negb (forallb ?f ?l)] => destruct (forallb f l)
         end; reflexivity.
Qed.

Lemma row_unit_lookup (g : grid) (row col : nat) :
  col < FIELD_SIZE → (cell g <$> row_unit row) !! col = Some (cell g (row, col)).
Proof.
  intros Hcol. unfold row_unit.
  by rewrite !list_lookup_fmap, lookup_seq_lt.
Qed.

Lemma col_unit_lookup (g : grid) (row col : nat) :
  row < FIELD_SIZE → (cell g <$> col_unit col) !! row = Some (cell g (row, col)).
Proof.
  intros Hrow. unfold col_unit.
  by rewrite !list_lookup_fmap, lookup_seq_lt.
Qed.

(** On a 9×9 grid the row vector [solution[row]] holds the cells of the
    row. *)
Lemma row_values (g : grid) (row : nat) :
  is_grid g → row < FIELD_SIZE →
  default [] (g !! row) = cell g <$> row_unit row.
Proof.
  intros Hgrid Hrow.
  destruct (is_grid_lookup g (row, 0)) as (r & Hr & Hlen & _);
    [done|in_positions|].
  simpl in Hr. rewrite Hr. change (default [] (Some r)) with r.
  apply list_eq. intros col.
  destruct (decide (col < FIELD_SIZE)) as [Hcol|Hcol].
  - rewrite row_unit_lookup by done.
    destruct (is_grid_lookup g (row, col)) as (r' & Hr' & _ & Hc);
      [done|in_positions|].
    simpl in *. congruence.
  - rewrite !lookup_ge_None_2; [done|..].
    + unfold row_unit. rewrite !length_fmap, length_seq. lia.
    + lia.
Qed.

Lemma col_values (g : grid) (col : nat) :
  (λ row, cell g (row, col)) <$> seq 0 FIELD_SIZE = cell g <$> col_unit col.
Proof. unfold col_unit. by rewrite <- list_fmap_compose. Qed.

Lemma units_row (row : nat) : row < FIELD_SIZE → row_unit row ∈ units.
Proof.
  intros. unfold units. apply elem_of_app. left.
  apply list_elem_of_fmap_2, elem_of_seq. lia.
Qed.

Lemma units_col (col : nat) : col < FIELD_SIZE → col_unit col ∈ units.
Proof.
  intros. unfold units. rewrite !elem_of_app. right. left.
  apply list_elem_of_fmap_2, elem_of_seq. lia.
Qed.

Lemma units_block (b : nat) : b < FIELD_SIZE → block_unit b ∈ units.
Proof.
  intros. unfold units. rewrite !elem_of_app. right. right.
  apply list_elem_of_fmap_2, elem_of_seq. lia.
Qed.

(** [check_field] accepts every valid solution that is a 9×9 grid. *)
Lemma valid_solution_check_field (init_field solution : grid) :
  is_grid solution → valid_solution init_field solution →
  check_field init_field solution = true.
Proof.
  intros Hgrid (Hkeep & Hrange & Hnodup).
  unfold preserved in Hkeep. unfold in_range in Hrange.
  unfold no_duplicates in Hnodup.
  rewrite Forall_forall in Hkeep, Hrange. rewrite Forall_forall in Hnodup.
  rewrite check_field_phases, !andb_true_iff.
  split_and!; apply forallb_forall.
  - intros p Hp%list_elem_of_In.
    specialize (Hkeep p Hp). specialize (Hrange p Hp).
    rewrite Z.gtb_ltb.
    destruct (Z.leb_spec (cell solution p) 0); [lia|].
    destruct (Z.ltb_spec (Z.of_nat FIELD_SIZE) (cell solution p)); [lia|].
    destruct (Z.eqb_spec (cell init_field p) 0); [done|].
    destruct (Z.eqb_spec (cell solution p) (cell init_field p)); [done|].
    by destruct Hkeep.
  - intros row [_ Hrow]%list_elem_of_In%elem_of_seq.
    rewrite row_values by done. by apply NoDup_is_unique, Hnodup, units_row.
  - intros col [_ Hcol]%list_elem_of_In%elem_of_seq.
    rewrite col_values. by apply NoDup_is_unique, Hnodup, units_col.
  - intros row Hrow. apply forallb_forall. intros col Hcol.
    assert (∀ b, b < FIELD_SIZE →
              is_unique (cell solution <$> block_unit b) = true) as Hblock
      by (intros b Hb; by apply NoDup_is_unique, Hnodup, units_block).
    unfold FIELD_SIZE in Hblock.
    destruct Hrow as [<-|[<-|[<-|[]]]], Hcol as [<-|[<-|[]]].
    + apply (Hblock 0). lia.
    + apply (Hblock 1). lia.
    + apply (Hblock 3). lia.
    + apply (Hblock 4). lia.
    + apply (Hblock 6). lia.
    + apply (Hblock 7). lia.
Qed.

(** X11. [check_field] accepts every valid solution: whenever the
    original field and the solution are 9×9 grids and the solution
    preserves the prefilled values, holds values of 1..9 only and repeats
    no value in a row, column or block, the result is true. *)
Theorem check_field_accepts_valid (init_field solution : grid) :
  is_grid init_field → is_grid solution →
  valid_solution init_field solution →
  check_field init_field solution = true.
Proof. intros _. apply valid_solution_check_field. Qed.

Lemma check_field_accepts_valid_witness :
  check_field puzzle solved = true.
Proof.
  apply (check_field_accepts_valid puzzle solved);
    apply (bool_decide_unpack _); by vm_compute.
Defined.

(** X12. What a 9×9 solution accepted against a 9×9 original field is
    sure to satisfy: every cell is in 1..9, every nonzero prefilled value
    is preserved, and no cell equals its right-hand or its lower
    neighbour. *)
Theorem check_field_true_guarantees (init_field solution : grid) :
  is_grid init_field → is_grid solution →
  check_field init_field solution = true →
  in_range solution ∧ preserved init_field solution
  ∧ (∀ row col, row < 9 → col < 8 →
       cell solution (row, col) ≠ cell solution (row, S col))
  ∧ (∀ row col, row < 8 → col < 9 →
       cell solution (row, col) ≠ cell solution (S row, col)).
Proof.
  intros _ Hgrid. rewrite check_field_phases, !andb_true_iff.
  intros [[[Hcells Hrows] Hcols] _].
  rewrite forallb_forall in Hcells, Hrows, Hcols.
  assert (∀ p, p ∈ positions →
            (1 ≤ cell solution p ≤ Z.of_nat FIELD_SIZE)%Z
            ∧ (cell init_field p ≠ 0%Z → cell solution p = cell init_field p))
    as Hcell.
  { intros p Hp%list_elem_of_In. specialize (Hcells p Hp).
    rewrite Z.gtb_ltb in Hcells.
    destruct (Z.leb_spec (cell solution p) 0); [done|].
    destruct (Z.ltb_spec (Z.of_nat FIELD_SIZE) (cell solution p)); [done|].
    split; [lia|]. intros Hne.
    destruct (Z.eqb_spec (cell init_field p) 0); [done|].
    by destruct (Z.eqb_spec (cell solution p) (cell init_field p)). }
  split_and!.
  - apply Forall_forall. intros p Hp. by apply Hcell.
  - apply Forall_forall. intros p Hp. by apply Hcell.
  - intros row col Hrow Hcol.
    specialize (Hrows row).
    rewrite (row_values solution row Hgrid) in Hrows by (unfold FIELD_SIZE; lia).
    eapply (proj1 (is_unique_neighbours _) (Hrows _) col);
      apply row_unit_lookup; unfold FIELD_SIZE; lia.
  - intros row col Hrow Hcol.
    specialize (Hcols col). rewrite col_values in Hcols.
    eapply (proj1 (is_unique_neighbours _) (Hcols _) row);
      apply col_unit_lookup; unfold FIELD_SIZE; lia.
  Unshelve.
  all: apply list_elem_of_In, elem_of_seq; unfold FIELD_SIZE; lia.
Qed.

Lemma check_field_true_guarantees_witness :
  in_range solved ∧ preserved puzzle solved
  ∧ (∀ row col, row < 9 → col < 8 →
       cell solved (row, col) ≠ cell solved (row, S col))
  ∧ (∀ row col, row < 8 → col < 9 →
       cell solved (row, col) ≠ cell solved (S row, col)).
Proof.
  apply (check_field_true_guarantees puzzle solved);
    [apply (bool_decide_unpack _); by vm_compute..|by vm_compute].
Defined.

(** X13. On a consistent 9×9 field, every grid the search counts passes
    [check_field] against that field. *)
Theorem solver_results_pass_check_field (field g : grid) :
  is_grid field → consistent field →
  g ∈ completions DEPTH field → check_field field g = true.
Proof.
  intros Hgrid Hcons Hg.
  assert (zeros field < DEPTH) as Hfuel
    by (pose proof (zeros_le field); unfold DEPTH; lia).
  apply completions_fills in Hg; [|done..].
  destruct (fills_valid_completion field g Hcons Hg) as [Hg9 Hvalid].
  by apply valid_solution_check_field.
Qed.

Lemma solver_results_pass_check_field_witness :
  check_field puzzle solved = true.
Proof.
  apply (solver_results_pass_check_field puzzle solved);
    apply (bool_decide_unpack _); by vm_compute.
Defined.

End SudokuFacts.


